(** * Candidate model of the WebRTC stack: ICE candidate types, candidates
      and ICE servers

    Shallow embedding of

    - [icecandidatetype.go]: [ICECandidateType], [NewICECandidateType],
      [String], [getCandidateType], [MarshalText], [UnmarshalText];
    - the file of [ICECandidate]: [newICECandidateFromICE],
      [newICECandidatesFromICE], [toICE], [convertTypeFromICE], [ToJSON];
    - the file of [ICEServer]: [parseURL], [urls], [validate].

    Go values are modelled as follows.  An [int], [byte], [uint16] or
    [uint32] is a [Z]; a conversion that narrows writes its wrap-around out.
    A [string] is a [string], a [[]byte] a [list byte].  A function that
    returns [(T, error)] with the zero value or [nil] next to every error
    is a [result]; one that can return a non-zero value next to an error
    returns a pair [T * option error].  An interface value whose methods are
    getters is the record of what they return.  Packages [ice] and [stun]
    are dependencies, and some declarations of this package live in files
    other than the ones above: both enter as type classes, so that every
    statement holds for whatever these are. *)

From Stdlib Require Import ZArith Lia Ascii DecimalString DecimalN.
From stdpp Require Import base option list strings pretty gmap.

Local Open Scope string_scope.
Local Open Scope Z_scope.

(** ** Errors *)

(** The error variables of this package that the embedded files mention.
    Only their identity matters ([errors.Is]). *)
Inductive sentinel : Set :=
| ErrUnknownType
| ErrNoTurnCredentials
| ErrTurnCredentials
| errICECandidateTypeUnknown
| errICEInvalidConvertCandidateType
| errICEProtocolUnknown.

Inductive error : Set :=
| Sentinel (e : sentinel)
    (** an error variable itself *)
| Errorf (wrapped : sentinel) (arg : string)
    (** [fmt.Errorf("%w: %s", wrapped, arg)] *)
| InvalidAccessError (Err : error)
    (** [&rtcerr.InvalidAccessError{Err: err}] *)
| Foreign (msg : string).
    (** an error made by package [ice] or [stun] *)

Inductive result (A : Type) : Type :=
| Ok (a : A)
| Err (e : error).
Arguments Ok {A} a.
Arguments Err {A} e.

Definition bind {A B} (r : result A) (k : A -> result B) : result B :=
  match r with
  | Ok a => k a
  | Err e => Err e
  end.

Notation "'let?' x := r 'in' k" := (bind r (fun x => k))
  (at level 10, x name, r at level 100, k at level 200, only parsing).

Global Instance sentinel_eq_dec : EqDecision sentinel.
Proof. solve_decision. Defined.

(** [errors.Is(err, target)] for the errors above: [%w] and
    [InvalidAccessError.Unwrap] both expose the wrapped error. *)
Fixpoint errors_Is (err : error) (target : sentinel) : bool :=
  match err with
  | Sentinel e => bool_decide (e = target)
  | Errorf w _ => bool_decide (w = target)
  | InvalidAccessError e => errors_Is e target
  | Foreign _ => false
  end.

Definition is_InvalidAccessError (e : error) : Prop :=
  exists cause, e = InvalidAccessError cause.

(** ** Declarations of this package outside the embedded files *)

Class Decls := {
  (** [ErrUnknownType.Error()], the text of the error variable *)
  ErrUnknownType_Error : string;
  (** [ICEProtocol], [NewICEProtocol] and [ICEProtocol.String] *)
  ICEProtocol : Type;
  NewICEProtocol : string -> result ICEProtocol;
  ICEProtocol_String : ICEProtocol -> string;
  (** the two constants of [ICECredentialType] (an [int]) *)
  ICECredentialTypePassword : Z;
  ICECredentialTypeOauth : Z;
}.

(** ** Package [ice] (dependency) *)

Module ice.

(** [type CandidateType byte] *)
Definition CandidateType := Z.

(** [type TCPType int] *)
Definition TCPType := Z.

Record CandidateRelatedAddress := {
  Address : string;
  Port : Z;
}.

(** A value of interface [ice.Candidate], as what its getters return.
    [NetworkShort] is [NetworkType().NetworkShort()], [RelatedAddress]
    is a pointer, [None] for [nil]. *)
Record Candidate := {
  ID : string;
  Foundation : string;
  Priority : Z;
  CAddress : string;
  NetworkShort : string;
  CPort : Z;
  Component : Z;
  Type_ : CandidateType;
  CTCPType : TCPType;
  RelatedAddress : option CandidateRelatedAddress;
  Marshal : string;
}.

Record CandidateHostConfig := {
  HCandidateID : string;
  HNetwork : string;
  HAddress : string;
  HPort : Z;
  HComponent : Z;
  HTCPType : TCPType;
  HFoundation : string;
  HPriority : Z;
}.

(** The fields [toICE] fills in [CandidateServerReflexiveConfig],
    [CandidatePeerReflexiveConfig] and [CandidateRelayConfig]; they bear
    the same names in the three. *)
Record CandidateRelatedConfig := {
  CandidateID : string;
  Network : string;
  RAddress : string;
  RPort : Z;
  RComponent : Z;
  RFoundation : string;
  RPriority : Z;
  RelAddr : string;
  RelPort : Z;
}.

Class API := {
  CandidateTypeHost : CandidateType;
  CandidateTypeServerReflexive : CandidateType;
  CandidateTypePeerReflexive : CandidateType;
  CandidateTypeRelay : CandidateType;
  CandidateType_String : CandidateType -> string;
  NewTCPType : string -> TCPType;
  TCPType_String : TCPType -> string;
  NewCandidateHost : CandidateHostConfig -> result Candidate;
  NewCandidateServerReflexive : CandidateRelatedConfig -> result Candidate;
  NewCandidatePeerReflexive : CandidateRelatedConfig -> result Candidate;
  NewCandidateRelay : CandidateRelatedConfig -> result Candidate;
}.

End ice.

(** ** Package [stun] (dependency) *)

Module stun.

Inductive SchemeType : Set :=
| SchemeTypeUnknown
| SchemeTypeSTUN
| SchemeTypeSTUNS
| SchemeTypeTURN
| SchemeTypeTURNS.

Inductive ProtoType : Set :=
| ProtoTypeUnknown
| ProtoTypeUDP
| ProtoTypeTCP.

Record URI := {
  Scheme : SchemeType;
  Host : string;
  Port : Z;
  Username : string;
  Password : string;
  Proto : ProtoType;
}.

Class API := {
  ParseURI : string -> result URI;
}.

#[global] Instance SchemeType_eq_dec : EqDecision SchemeType.
Proof. solve_decision. Defined.

End stun.

(** ** [icecandidatetype.go] *)

(** [type ICECandidateType int] *)
Definition ICECandidateType := Z.

Definition ICECandidateTypeUnknown : ICECandidateType := 0.
Definition ICECandidateTypeHost : ICECandidateType := 1.
Definition ICECandidateTypeSrflx : ICECandidateType := 2.
Definition ICECandidateTypePrflx : ICECandidateType := 3.
Definition ICECandidateTypeRelay : ICECandidateType := 4.

Definition iceCandidateTypeHostStr := "host".
Definition iceCandidateTypeSrflxStr := "srflx".
Definition iceCandidateTypePrflxStr := "prflx".
Definition iceCandidateTypeRelayStr := "relay".

Definition NewICECandidateType (raw : string)
  : ICECandidateType * option error :=
  if String.eqb raw iceCandidateTypeHostStr then
    (ICECandidateTypeHost, None)
  else if String.eqb raw iceCandidateTypeSrflxStr then
    (ICECandidateTypeSrflx, None)
  else if String.eqb raw iceCandidateTypePrflxStr then
    (ICECandidateTypePrflx, None)
  else if String.eqb raw iceCandidateTypeRelayStr then
    (ICECandidateTypeRelay, None)
  else
    (ICECandidateTypeUnknown, Some (Errorf errICECandidateTypeUnknown raw)).

Section CandidateType.
Context `{Decls} `{ice.API}.

Definition ICECandidateType_String (t : ICECandidateType) : string :=
  if t =? ICECandidateTypeHost then iceCandidateTypeHostStr
  else if t =? ICECandidateTypeSrflx then iceCandidateTypeSrflxStr
  else if t =? ICECandidateTypePrflx then iceCandidateTypePrflxStr
  else if t =? ICECandidateTypeRelay then iceCandidateTypeRelayStr
  else ErrUnknownType_Error.

Definition getCandidateType (candidateType : ice.CandidateType)
  : ICECandidateType * option error :=
  if candidateType =? ice.CandidateTypeHost then
    (ICECandidateTypeHost, None)
  else if candidateType =? ice.CandidateTypeServerReflexive then
    (ICECandidateTypeSrflx, None)
  else if candidateType =? ice.CandidateTypePeerReflexive then
    (ICECandidateTypePrflx, None)
  else if candidateType =? ice.CandidateTypeRelay then
    (ICECandidateTypeRelay, None)
  else
    (ICECandidateTypeUnknown,
     Some (Errorf errICEInvalidConvertCandidateType
             (ice.CandidateType_String candidateType))).

Definition MarshalText (t : ICECandidateType)
  : list Byte.byte * option error :=
  (String.list_byte_of_string (ICECandidateType_String t), None).

(** The receiver is a pointer: the result pairs the value stored in [*t]
    with the error returned.  The old value of [*t] is not read. *)
Definition UnmarshalText (t : ICECandidateType) (b : list Byte.byte)
  : ICECandidateType * option error :=
  NewICECandidateType (String.string_of_list_byte b).

End CandidateType.

(** ** [ICECandidate] *)

(** [ICECandidateInit] is declared in another file; [ToJSON] fills these
    three fields.  The two pointers are [option]s. *)
Module ICECandidateInit.
Record t := {
  Candidate : string;
  SDPMid : option string;
  SDPMLineIndex : option Z;
}.
End ICECandidateInit.

Section Candidate.
Context `{Decls} `{ice.API}.

Record ICECandidate := {
  statsID : string;
  Foundation : string;
  Priority : Z;
  Address : string;
  Protocol : ICEProtocol;
  Port : Z;
  Typ : ICECandidateType;
  Component : Z;
  RelatedAddress : string;
  RelatedPort : Z;
  TCPType : string;
  SDPMid : string;
  SDPMLineIndex : Z;
}.

(** [uint16(n)] for an [int] *)
Definition uint16 (n : Z) : Z := n mod 65536.

Definition convertTypeFromICE (t : ice.CandidateType)
  : ICECandidateType * option error :=
  if t =? ice.CandidateTypeHost then
    (ICECandidateTypeHost, None)
  else if t =? ice.CandidateTypeServerReflexive then
    (ICECandidateTypeSrflx, None)
  else if t =? ice.CandidateTypePeerReflexive then
    (ICECandidateTypePrflx, None)
  else if t =? ice.CandidateTypeRelay then
    (ICECandidateTypeRelay, None)
  else
    (t : ICECandidateType,
     Some (Errorf errICECandidateTypeUnknown (ice.CandidateType_String t))).

Definition newICECandidateFromICE (candidate : ice.Candidate)
    (sdpMid : string) (sdpMLineIndex : Z) : result ICECandidate :=
  match convertTypeFromICE (ice.Type_ candidate) with
  | (_, Some err) => Err err
  | (typ, None) =>
    let? protocol := NewICEProtocol (ice.NetworkShort candidate) in
    let newCandidate := {|
      statsID := ice.ID candidate;
      Foundation := ice.Foundation candidate;
      Priority := ice.Priority candidate;
      Address := ice.CAddress candidate;
      Protocol := protocol;
      Port := uint16 (ice.CPort candidate);
      Component := ice.Component candidate;
      Typ := typ;
      TCPType := ice.TCPType_String (ice.CTCPType candidate);
      SDPMid := sdpMid;
      SDPMLineIndex := sdpMLineIndex;
      RelatedAddress := "";
      RelatedPort := 0;
    |} in
    match ice.RelatedAddress candidate with
    | Some rel =>
      Ok {|
        statsID := statsID newCandidate;
        Foundation := Foundation newCandidate;
        Priority := Priority newCandidate;
        Address := Address newCandidate;
        Protocol := Protocol newCandidate;
        Port := Port newCandidate;
        Component := Component newCandidate;
        Typ := Typ newCandidate;
        TCPType := TCPType newCandidate;
        SDPMid := SDPMid newCandidate;
        SDPMLineIndex := SDPMLineIndex newCandidate;
        RelatedAddress := ice.Address rel;
        RelatedPort := uint16 (ice.Port rel);
      |}
    | None => Ok newCandidate
    end
  end.

(** The loop of [newICECandidatesFromICE], from the candidates still to
    convert and the slice built so far. *)
Fixpoint newICECandidatesFromICE_loop (iceCandidates : list ice.Candidate)
    (sdpMid : string) (sdpMLineIndex : Z) (candidates : list ICECandidate)
  : result (list ICECandidate) :=
  match iceCandidates with
  | [] => Ok candidates
  | i :: rest =>
    let? c := newICECandidateFromICE i sdpMid sdpMLineIndex in
    newICECandidatesFromICE_loop rest sdpMid sdpMLineIndex
      (candidates ++ [c])
  end.

Definition newICECandidatesFromICE (iceCandidates : list ice.Candidate)
    (sdpMid : string) (sdpMLineIndex : Z) : result (list ICECandidate) :=
  newICECandidatesFromICE_loop iceCandidates sdpMid sdpMLineIndex [].

Definition relatedConfig (c : ICECandidate) : ice.CandidateRelatedConfig :=
  {| ice.CandidateID := statsID c;
     ice.Network := ICEProtocol_String (Protocol c);
     ice.RAddress := Address c;
     ice.RPort := Port c;
     ice.RComponent := Component c;
     ice.RFoundation := Foundation c;
     ice.RPriority := Priority c;
     ice.RelAddr := RelatedAddress c;
     ice.RelPort := RelatedPort c |}.

Definition toICE (c : ICECandidate) : result ice.Candidate :=
  let candidateID := statsID c in
  if Typ c =? ICECandidateTypeHost then
    let config := {|
      ice.HCandidateID := candidateID;
      ice.HNetwork := ICEProtocol_String (Protocol c);
      ice.HAddress := Address c;
      ice.HPort := Port c;
      ice.HComponent := Component c;
      ice.HTCPType := ice.NewTCPType (TCPType c);
      ice.HFoundation := Foundation c;
      ice.HPriority := Priority c;
    |} in
    ice.NewCandidateHost config
  else if Typ c =? ICECandidateTypeSrflx then
    ice.NewCandidateServerReflexive (relatedConfig c)
  else if Typ c =? ICECandidateTypePrflx then
    ice.NewCandidatePeerReflexive (relatedConfig c)
  else if Typ c =? ICECandidateTypeRelay then
    ice.NewCandidateRelay (relatedConfig c)
  else
    Err (Errorf errICECandidateTypeUnknown
           (ICECandidateType_String (Typ c))).

Definition ToJSON (c : ICECandidate) : ICECandidateInit.t :=
  let candidateStr :=
    match toICE c with
    | Ok candidate => ice.Marshal candidate
    | Err _ => ""
    end in
  {| ICECandidateInit.Candidate := "candidate:" +:+ candidateStr;
     ICECandidateInit.SDPMid := Some (SDPMid c);
     ICECandidateInit.SDPMLineIndex := Some (SDPMLineIndex c) |}.

End Candidate.

(** ** [ICEServer] *)

(** [OAuthCredential], with the two fields [iceserverUnmarshalOauth]
    fills. *)
Record OAuthCredential := {
  MACKey : string;
  AccessToken : string;
}.

(** A value of type [any] held in [ICEServer.Credential]: [nil], or a value
    with its dynamic type.  [urls] asserts the types [string] and
    [OAuthCredential]; the last three constructors stand for the dynamic
    types it rejects. *)
Inductive any : Type :=
| AnyNil
| AnyString (s : string)
| AnyOAuthCredential (c : OAuthCredential)
| AnyOAuthCredentialPtr (c : OAuthCredential)
| AnyBool (b : bool)
| AnyInt (n : Z).

Definition any_is_nil (v : any) : bool :=
  match v with
  | AnyNil => true
  | _ => false
  end.

(** [type ICECredentialType int] *)
Definition ICECredentialType := Z.

Record ICEServer := {
  URLs : list string;
  Username : string;
  Credential : any;
  CredentialType : ICECredentialType;
}.

Section Server.
Context `{Decls} `{stun.API}.

(** [s.URLs[i]] panics out of range: [None]. *)
Definition parseURL (s : ICEServer) (i : nat)
  : option (result stun.URI) :=
  stun.ParseURI <$> URLs s !! i.

Definition is_turn (scheme : stun.SchemeType) : bool :=
  bool_decide (scheme = stun.SchemeTypeTURN)
  || bool_decide (scheme = stun.SchemeTypeTURNS).

Definition with_Username (url : stun.URI) (u : string) : stun.URI :=
  {| stun.Scheme := stun.Scheme url; stun.Host := stun.Host url;
     stun.Port := stun.Port url; stun.Username := u;
     stun.Password := stun.Password url; stun.Proto := stun.Proto url |}.

Definition with_Password (url : stun.URI) (p : string) : stun.URI :=
  {| stun.Scheme := stun.Scheme url; stun.Host := stun.Host url;
     stun.Port := stun.Port url; stun.Username := stun.Username url;
     stun.Password := p; stun.Proto := stun.Proto url |}.

(** The checks [urls] makes on a parsed TURN or TURNS URL; the result is
    the URL with the credentials written into it. *)
Definition turn_credentials (s : ICEServer) (url : stun.URI)
  : result stun.URI :=
  if String.eqb (Username s) "" || any_is_nil (Credential s) then
    Err (InvalidAccessError (Sentinel ErrNoTurnCredentials))
  else
    let url := with_Username url (Username s) in
    if CredentialType s =? ICECredentialTypePassword then
      match Credential s with
      | AnyString password => Ok (with_Password url password)
      | _ => Err (InvalidAccessError (Sentinel ErrTurnCredentials))
      end
    else if CredentialType s =? ICECredentialTypeOauth then
      match Credential s with
      | AnyOAuthCredential _ => Ok url
      | _ => Err (InvalidAccessError (Sentinel ErrTurnCredentials))
      end
    else
      Err (InvalidAccessError (Sentinel ErrTurnCredentials)).

(** The loop of [urls]: [rest] is [s.URLs[i:]] for the loop index [i]
    (so [s.parseURL(i)] parses the head of [rest]), [urls] the slice
    built so far. *)
Fixpoint urls_loop (s : ICEServer) (rest : list string)
    (urls : list stun.URI) : result (list stun.URI) :=
  match rest with
  | [] => Ok urls
  | raw :: rest' =>
    match stun.ParseURI raw with
    | Err err => Err (InvalidAccessError err)
    | Ok url =>
      if is_turn (stun.Scheme url) then
        let? url := turn_credentials s url in
        urls_loop s rest' (urls ++ [url])
      else
        urls_loop s rest' (urls ++ [url])
    end
  end.

Definition urls (s : ICEServer) : result (list stun.URI) :=
  urls_loop s (URLs s) [].

Definition validate (s : ICEServer) : option error :=
  match urls s with
  | Ok _ => None
  | Err err => Some err
  end.

End Server.

(** ** Transceiver registry and the start pass of negotiation

    [AddTrack], [RemoveTrack] and the application of a remote description
    live in files of this package other than the embedded ones;
    [peerconnection_media_test.go] calls them
    ([TestAddTransceiverAddTrack_Reuse],
    [TestPeerConnection_Start_Only_Negotiated_Senders]). *)

Module Registry.

Inductive RTPCodecType : Set :=
| RTPCodecTypeAudio
| RTPCodecTypeVideo.

Inductive RTPTransceiverDirection : Set :=
| RTPTransceiverDirectionSendrecv
| RTPTransceiverDirectionSendonly
| RTPTransceiverDirectionRecvonly
| RTPTransceiverDirectionInactive.

#[global] Instance RTPCodecType_eq_dec : EqDecision RTPCodecType.
Proof. solve_decision. Defined.

#[global] Instance RTPTransceiverDirection_eq_dec :
  EqDecision RTPTransceiverDirection.
Proof. solve_decision. Defined.

(** Modelled from the spec: the Sender of the data model, reduced to the
    track it sends (a track is named by its id), its "started" flag, and
    a flag for "stopped without being destroyed". *)
Record Sender := {
  track : string;
  started : bool;
  stopped : bool;
}.

#[global] Instance Sender_eq_dec : EqDecision Sender.
Proof. solve_decision. Defined.

(** Modelled from the spec: the Transceiver of the data model: a mid
    ([None] until a negotiation assigns it), a media kind, a direction
    and an optional Sender.  The Receiver is left out: no operation
    below reads or writes it. *)
Record Transceiver := {
  mid : option string;
  kind : RTPCodecType;
  direction : RTPTransceiverDirection;
  sender : option Sender;
}.

Definition newSender (trk : string) : Sender :=
  {| track := trk; started := false; stopped := false |}.

Section Reuse.
(** Which directions "permit sending" is not spelled out by the data
    model; the registry is parametric in it. *)
Variable permitsSending : RTPTransceiverDirection -> bool.

(** Modelled from the spec: the test of [createOrReuse] on one
    transceiver: matching media kind, empty Sender slot, direction
    that permits sending. *)
Definition reusable (k : RTPCodecType) (t : Transceiver) : bool :=
  bool_decide (kind t = k)
  && bool_decide (sender t = None)
  && permitsSending (direction t).

(** Modelled from the spec: [createOrReuse(kind, direction)] of the
    TransceiverRegistry, which add-track calls for a track: "first
    empty-compatible-slot wins, else append".  A reused transceiver
    has its direction reassigned and a new Sender attached; its mid
    and kind stay.  The result pairs the registry with the position
    of the transceiver that took the track. *)
Definition createOrReuse (k : RTPCodecType)
    (d : RTPTransceiverDirection) (trk : string)
    (ts : list Transceiver) : list Transceiver * nat :=
  match list_find (fun t => reusable k t = true) ts with
  | Some (i, t) =>
    (<[i := {| mid := mid t; kind := kind t; direction := d;
               sender := Some (newSender trk) |}]> ts, i)
  | None =>
    ((ts ++ [{| mid := None; kind := k; direction := d;
                sender := Some (newSender trk) |}])%list, length ts)
  end.

Definition detach (t : Transceiver) : Transceiver :=
  {| mid := mid t; kind := kind t; direction := direction t;
     sender := None |}.

(** Modelled from the spec: [removeTrack(sender)] of the
    TransceiverRegistry: the Sender is detached from the transceiver
    that owns it; no transceiver leaves the registry and no mid
    changes.  A Sender that no transceiver owns is an error
    ([None]). *)
Definition removeTrack (s : Sender) (ts : list Transceiver)
  : option (list Transceiver) :=
  match list_find (fun t => sender t = Some s) ts with
  | Some (i, t) => Some (<[i := detach t]> ts)
  | None => None
  end.

End Reuse.

(** Modelled from the spec: a MediaSection of the remote description, as
    far as the start pass reads it: its mid attribute and its direction.
    The direction is the one the remote peer wrote, seen from its side. *)
Record MediaSection := {
  section_mid : option string;
  section_direction : RTPTransceiverDirection;
}.

(** Modelled from the spec: what the local offer holds of the transceiver
    at one position of the registry: the mid of its media section and the
    track of the Sender the section was made for, [None] for a transceiver
    without Sender.  [TestPeerConnection_Start_Only_Negotiated_Senders]
    speaks of the "senders provided in an offer/answer". *)
Record OfferedSection := {
  offered_mid : string;
  offered_track : option string;
}.

Section Offer.
(** How an offer numbers its media sections is not spelled out by the
    data model; the registry is parametric in the mid that the section at
    a position gets. *)
Variable freshMid : nat -> string.

(** Modelled from the spec: a mid is assigned once and never changes. *)
Definition assignMid (i : nat) (t : Transceiver) : Transceiver :=
  match mid t with
  | Some _ => t
  | None =>
    {| mid := Some (freshMid i); kind := kind t; direction := direction t;
       sender := sender t |}
  end.

(** Modelled from the spec: the media section that the offer holds for
    the transceiver at position [i]. *)
Definition offeredSection (i : nat) (t : Transceiver) : OfferedSection :=
  {| offered_mid := default (freshMid i) (mid t);
     offered_track := track <$> sender t |}.

(** Modelled from the spec: creating the offer and setting it as the
    local description: every transceiver of the registry gets a media
    section, in the order of the registry, and a mid when it has none.
    The result pairs the registry with the offer. *)
Definition createOffer (ts : list Transceiver)
  : list Transceiver * list OfferedSection :=
  (imap assignMid ts, imap offeredSection ts).

End Offer.

(** Modelled from the spec: the direction of the local side of a section
    whose remote side has direction [d]: what one peer sends the other
    receives. *)
Definition reversed (d : RTPTransceiverDirection)
  : RTPTransceiverDirection :=
  match d with
  | RTPTransceiverDirectionSendrecv => RTPTransceiverDirectionSendrecv
  | RTPTransceiverDirectionSendonly => RTPTransceiverDirectionRecvonly
  | RTPTransceiverDirectionRecvonly => RTPTransceiverDirectionSendonly
  | RTPTransceiverDirectionInactive => RTPTransceiverDirectionInactive
  end.

(** Modelled from the spec: the direction "includes send". *)
Definition includesSend (d : RTPTransceiverDirection) : bool :=
  match d with
  | RTPTransceiverDirectionSendrecv
  | RTPTransceiverDirectionSendonly => true
  | _ => false
  end.

(** Modelled from the spec: a negotiated section is active when its
    direction includes "send".  For a local Sender the direction is that of
    the local side: in [TestPeerConnection_Start_Only_Negotiated_Senders]
    the answering peer has no track, and its answer starts the Sender of
    the offering peer. *)
Definition active (m : MediaSection) : bool :=
  includesSend (reversed (section_direction m)).

(** Modelled from the spec: the negotiated section of a transceiver:
    the section of the description that carries the transceiver's mid
    (step 1 of applying a description).  The fallbacks for descriptions
    without mid attributes are not part of this model. *)
Definition negotiatedSection (desc : list MediaSection) (t : Transceiver)
  : option MediaSection :=
  match mid t with
  | Some m =>
    snd <$> list_find (fun s => section_mid s = Some m) desc
  | None => None
  end.

(** Modelled from the spec: the offer provided this Sender: its section
    at the position of the transceiver was made for this transceiver and
    this Sender. *)
Definition offers (o : option OfferedSection) (t : Transceiver)
    (s : Sender) : bool :=
  match o with
  | Some sec =>
    bool_decide (mid t = Some (offered_mid sec))
    && bool_decide (offered_track sec = Some (track s))
  | None => false
  end.

Definition with_sender (t : Transceiver) (s : Sender) : Transceiver :=
  {| mid := mid t; kind := kind t; direction := direction t;
     sender := Some s |}.

(** Modelled from the spec: what the pass after a remote answer does to
    one transceiver, given the section of the offer at its position: a
    Sender that the offer provided, whose negotiated section is active
    and that was not already started, is started; one whose section is
    inactive is stopped and stays in its slot.  A Sender that the offer
    did not provide is left as it is. *)
Definition startOrStop (o : option OfferedSection)
    (desc : list MediaSection) (t : Transceiver) : Transceiver :=
  match sender t with
  | Some s =>
    if offers o t s then
      match negotiatedSection desc t with
      | Some m =>
        if active m then
          if started s then t
          else with_sender t {| track := track s; started := true;
                                stopped := stopped s |}
        else
          with_sender t {| track := track s; started := started s;
                           stopped := true |}
      | None => t
      end
    else t
  | None => t
  end.

(** Modelled from the spec: the start/stop pass over the registry once
    the remote answer to the offer is applied. *)
Definition startSenders (offer : list OfferedSection)
    (desc : list MediaSection) (ts : list Transceiver)
  : list Transceiver :=
  imap (fun i t => startOrStop (offer !! i) desc t) ts.

(** [sender.hasSent()] of the test, on the Sender of a transceiver. *)
Definition hasSent (t : Transceiver) : bool :=
  match sender t with
  | Some s => started s
  | None => false
  end.

End Registry.

(** ** An instance of every interface

    The statements below hold for all instances of [Decls], [ice.API] and
    [stun.API].  The instance here serves to run the definitions on
    concrete values.  Its candidates store the configuration they are built
    from, its candidate types are numbered from 1 in the order of the
    [switch] of [getCandidateType], and its URL parser reads
    [scheme:host]. *)

Module Example.

Definition decls : Decls := {|
  ErrUnknownType_Error := "unknown type";
  ICEProtocol := Z;
  NewICEProtocol raw :=
    if String.eqb raw "udp" then Ok 1
    else if String.eqb raw "tcp" then Ok 2
    else Err (Errorf errICEProtocolUnknown raw);
  ICEProtocol_String p :=
    if p =? 1 then "udp" else if p =? 2 then "tcp" else "unknown type";
  ICECredentialTypePassword := 0;
  ICECredentialTypeOauth := 1;
|}.

Definition typeName (t : ice.CandidateType) : string :=
  if t =? 1 then "host"
  else if t =? 2 then "srflx"
  else if t =? 3 then "prflx"
  else if t =? 4 then "relay"
  else "Unknown candidate type".

Definition marshal (foundation : string) (component : Z)
    (network : string) (priority : Z) (address : string) (port : Z)
    (typ : ice.CandidateType) (rel : option ice.CandidateRelatedAddress)
  : string :=
  foundation +:+ " " +:+ pretty component +:+ " " +:+ network +:+ " "
  +:+ pretty priority +:+ " " +:+ address +:+ " " +:+ pretty port
  +:+ " typ " +:+ typeName typ
  +:+ match rel with
      | Some r => " raddr " +:+ ice.Address r
                  +:+ " rport " +:+ pretty (ice.Port r)
      | None => ""
      end.

Definition candidate (typ : ice.CandidateType) (id network address : string)
    (port component : Z) (tcp : ice.TCPType) (foundation : string)
    (priority : Z) (rel : option ice.CandidateRelatedAddress)
  : result ice.Candidate :=
  if String.eqb address "" then Err (Foreign "empty address")
  else Ok {|
    ice.ID := id;
    ice.Foundation := foundation;
    ice.Priority := priority;
    ice.CAddress := address;
    ice.NetworkShort := network;
    ice.CPort := port;
    ice.Component := component;
    ice.Type_ := typ;
    ice.CTCPType := tcp;
    ice.RelatedAddress := rel;
    ice.Marshal :=
      marshal foundation component network priority address port typ rel;
  |}.

Definition related (typ : ice.CandidateType)
    (config : ice.CandidateRelatedConfig) : result ice.Candidate :=
  candidate typ (ice.CandidateID config) (ice.Network config)
    (ice.RAddress config) (ice.RPort config) (ice.RComponent config) 0
    (ice.RFoundation config) (ice.RPriority config)
    (Some {| ice.Address := ice.RelAddr config;
             ice.Port := ice.RelPort config |}).

Definition iceAPI : ice.API := {|
  ice.CandidateTypeHost := 1;
  ice.CandidateTypeServerReflexive := 2;
  ice.CandidateTypePeerReflexive := 3;
  ice.CandidateTypeRelay := 4;
  ice.CandidateType_String := typeName;
  ice.NewTCPType raw :=
    if String.eqb raw "active" then 1
    else if String.eqb raw "passive" then 2
    else if String.eqb raw "so" then 3
    else 0;
  ice.TCPType_String t :=
    if t =? 1 then "active"
    else if t =? 2 then "passive"
    else if t =? 3 then "so"
    else "";
  ice.NewCandidateHost config :=
    candidate 1 (ice.HCandidateID config) (ice.HNetwork config)
      (ice.HAddress config) (ice.HPort config) (ice.HComponent config)
      (ice.HTCPType config) (ice.HFoundation config)
      (ice.HPriority config) None;
  ice.NewCandidateServerReflexive := related 2;
  ice.NewCandidatePeerReflexive := related 3;
  ice.NewCandidateRelay := related 4;
|}.

Definition schemeOf (raw : string) : stun.SchemeType :=
  if String.eqb raw "stun" then stun.SchemeTypeSTUN
  else if String.eqb raw "stuns" then stun.SchemeTypeSTUNS
  else if String.eqb raw "turn" then stun.SchemeTypeTURN
  else if String.eqb raw "turns" then stun.SchemeTypeTURNS
  else stun.SchemeTypeUnknown.

(** The text before the first colon, and the text after it. *)
Fixpoint splitColon (raw : string) : option (string * string) :=
  match raw with
  | EmptyString => None
  | String a rest =>
    if Ascii.eqb a ":"%char then Some (EmptyString, rest)
    else
      match splitColon rest with
      | Some (scheme, host) => Some (String a scheme, host)
      | None => None
      end
  end.

Definition parseURI (raw : string) : result stun.URI :=
  match splitColon raw with
  | None => Err (Foreign "invalid URL")
  | Some (scheme, host) =>
    match schemeOf scheme with
    | stun.SchemeTypeUnknown => Err (Foreign "unknown scheme type")
    | sch =>
      if String.eqb host "" then Err (Foreign "invalid hostname")
      else Ok {|
        stun.Scheme := sch;
        stun.Host := host;
        stun.Port :=
          match sch with
          | stun.SchemeTypeSTUNS | stun.SchemeTypeTURNS => 5349
          | _ => 3478
          end;
        stun.Username := "";
        stun.Password := "";
        stun.Proto :=
          match sch with
          | stun.SchemeTypeSTUNS | stun.SchemeTypeTURNS =>
            stun.ProtoTypeTCP
          | _ => stun.ProtoTypeUDP
          end;
      |}
    end
  end.

Definition stunAPI : stun.API := {| stun.ParseURI := parseURI |}.

End Example.

Definition known_kinds : list string :=
  [iceCandidateTypeHostStr; iceCandidateTypeSrflxStr;
   iceCandidateTypePrflxStr; iceCandidateTypeRelayStr].

Definition known_types : list ICECandidateType :=
  [ICECandidateTypeHost; ICECandidateTypeSrflx;
   ICECandidateTypePrflx; ICECandidateTypeRelay].

Section KnownICE.
Context `{ice.API}.

(** The values of [ice.CandidateType] that the two conversions from it
    have a case for. *)
Definition ice_known (t : ice.CandidateType) : Prop :=
  t = ice.CandidateTypeHost ∨ t = ice.CandidateTypeServerReflexive
  ∨ t = ice.CandidateTypePeerReflexive ∨ t = ice.CandidateTypeRelay.

End KnownICE.

(** ** The wire form of a candidate

    [ToJSON] and [String] take the text of a candidate from package [ice],
    and no function of the embedded files reads such a text back.  The
    definitions of this part follow the candidate grammar that the data
    model gives for [toWireForm]:
    [foundation component transport priority address port typ type
    [raddr X rport Y] [tcptype Z]], the fields separated by one space. *)

Definition space : ascii := " "%char.


(** Modelled from the spec: the fields of a text, which single spaces
    separate; as with [strings.Split(s, " ")], two spaces in a row enclose
    an empty field. *)
Fixpoint split_fields (s : string) : list string :=
  match s with
  | EmptyString => [EmptyString]
  | String a rest =>
    if Ascii.eqb a space then EmptyString :: split_fields rest
    else
      match split_fields rest with
      | field :: fields => String a field :: fields
      | [] => [String a EmptyString]
      end
  end.

(** Modelled from the spec: the fields with one space between them, as
    [strings.Join(fields, " ")]. *)
Fixpoint join_fields (fields : list string) : string :=
  match fields with
  | [] => EmptyString
  | field :: rest =>
    match rest with
    | [] => field
    | _ :: _ => field +:+ String space (join_fields rest)
    end
  end.

(** Modelled from the spec: a number in decimal digits, and the number
    that decimal digits write; no digits write no number. *)
Definition decimal (n : Z) : string :=
  NilEmpty.string_of_uint (N.to_uint (Z.to_N n)).

Definition parse_decimal (s : string) : option Z :=
  if String.eqb s "" then None
  else (λ d, Z.of_N (N.of_uint d)) <$> NilEmpty.uint_of_string s.

(** The error for a text that is not of the grammar. *)
Definition malformed : error := Foreign "malformed candidate".

Definition required {A} (o : option A) : result A :=
  match o with
  | Some a => Ok a
  | None => Err malformed
  end.

(** Modelled from the spec: the optional fields after the type: the
    related address and port, with what is left after them, and the TCP
    type. *)
Definition parse_related (rest : list string)
  : option (string * Z * list string) :=
  match rest with
  | k1 :: address :: k2 :: port :: rest' =>
    if String.eqb k1 "raddr" && String.eqb k2 "rport" then
      (λ p, (address, p, rest')) <$> parse_decimal port
    else Some ("", 0, rest)
  | _ => Some ("", 0, rest)
  end.

Definition parse_tcptype (rest : list string) : option string :=
  match rest with
  | [] => Some ""
  | [k; tcpType] => if String.eqb k "tcptype" then Some tcpType else None
  | _ => None
  end.

Section Wire.
Context `{Decls}.

(** Modelled from the spec: the fields that [toWireForm] writes: the
    seven fields every candidate has, the related address and port of a
    candidate that is not a host candidate (empty and 0 when it has
    none), and the TCP type when there is one. *)
Definition wire_fields (c : ICECandidate) : list string :=
  ([Foundation c; decimal (Component c); ICEProtocol_String (Protocol c);
    decimal (Priority c); Address c; decimal (Port c); "typ";
    ICECandidateType_String (Typ c)]
   ++ (if Typ c =? ICECandidateTypeHost then []
       else ["raddr"; RelatedAddress c; "rport";
             decimal (RelatedPort c)])
   ++ (if String.eqb (TCPType c) "" then []
       else ["tcptype"; TCPType c]))%list.

(** Modelled from the spec: [toWireForm(candidate)], the text of a
    candidate, which the embedded files leave to package [ice]: the
    fields of the grammar, or the error of an unknown candidate type. *)
Definition toWireForm (c : ICECandidate) : result string :=
  if bool_decide (Typ c ∈ known_types) then
    Ok (join_fields (wire_fields c))
  else
    Err (Errorf errICECandidateTypeUnknown
           (ICECandidateType_String (Typ c))).

(** Modelled from the spec: [fromWireForm], the candidate that a text of
    the grammar describes, which the embedded files leave to package
    [ice]: the type is read by [NewICECandidateType] and the transport by
    [NewICEProtocol], whose errors are returned; [sdpMid] and
    [sdpMLineIndex] come with the text, as for [newICECandidateFromICE];
    the text carries no stats id. *)
Definition fromWireForm (wire : string) (sdpMid : string)
    (sdpMLineIndex : Z) : result ICECandidate :=
  match split_fields wire with
  | foundation :: component :: transport :: priority :: address :: port
    :: keyword :: typ :: rest =>
    if String.eqb keyword "typ" then
      match NewICECandidateType typ with
      | (_, Some err) => Err err
      | (candidateType, None) =>
        let? protocol := NewICEProtocol transport in
        let? component := required (parse_decimal component) in
        let? priority := required (parse_decimal priority) in
        let? port := required (parse_decimal port) in
        let? related := required (parse_related rest) in
        let? tcpType := required (parse_tcptype (snd related)) in
        Ok {|
          statsID := "";
          Foundation := foundation;
          Priority := priority;
          Address := address;
          Protocol := protocol;
          Port := port;
          Typ := candidateType;
          Component := component;
          RelatedAddress := fst (fst related);
          RelatedPort := snd (fst related);
          TCPType := tcpType;
          SDPMid := sdpMid;
          SDPMLineIndex := sdpMLineIndex;
        |}
      end
    else Err malformed
  | _ => Err malformed
  end.





End Wire.

(** ** Values for the examples *)

(** A server-reflexive candidate, without a related address. *)
Definition c_srflx : @ICECandidate Example.decls :=
  @Build_ICECandidate Example.decls
    "id" "f" 100 "192.0.2.1" 1 5000 ICECandidateTypeSrflx 1 "" 0 "" "0" 0.

(** A candidate whose type is none of the four. *)
Definition c_unknown : @ICECandidate Example.decls :=
  @Build_ICECandidate Example.decls
    "id" "f" 100 "192.0.2.1" 1 5000 7 1 "" 0 "" "0" 0.

(** What package [ice] builds from [c_srflx]: a candidate of type
    server-reflexive whose related address is the empty address and
    port 0. *)
Definition ic_srflx : ice.Candidate := {|
  ice.ID := "id";
  ice.Foundation := "f";
  ice.Priority := 100;
  ice.CAddress := "192.0.2.1";
  ice.NetworkShort := "udp";
  ice.CPort := 5000;
  ice.Component := 1;
  ice.Type_ := 2;
  ice.CTCPType := 0;
  ice.RelatedAddress := Some {| ice.Address := ""; ice.Port := 0 |};
  ice.Marshal := "f 1 udp 100 192.0.2.1 5000 typ srflx raddr  rport 0";
|}.

(** A host candidate, which reports no related address. *)
Definition ic_host : ice.Candidate := {|
  ice.ID := "id";
  ice.Foundation := "f";
  ice.Priority := 100;
  ice.CAddress := "192.0.2.1";
  ice.NetworkShort := "udp";
  ice.CPort := 5000;
  ice.Component := 1;
  ice.Type_ := 1;
  ice.CTCPType := 0;
  ice.RelatedAddress := None;
  ice.Marshal := "f 1 udp 100 192.0.2.1 5000 typ host";
|}.

Section RelatedFields.
Context `{Decls}.

(** [RelatedAddress] and [RelatedPort] are set: non-empty and non-zero. *)
Definition related_set (c : ICECandidate) : Prop :=
  RelatedAddress c ≠ "" ∧ RelatedPort c ≠ 0.

(** The candidate was learned through a translation. *)
Definition translated (c : ICECandidate) : Prop :=
  Typ c ∈ [ICECandidateTypeSrflx; ICECandidateTypePrflx;
           ICECandidateTypeRelay].

End RelatedFields.

Section ServerProps.
Context `{Decls} `{stun.API}.

(** Some URL of the server parses to a TURN or TURNS URL. *)
Definition has_turn_url (s : ICEServer) : Prop :=
  ∃ raw url, raw ∈ URLs s ∧ stun.ParseURI raw = Ok url
             ∧ is_turn (stun.Scheme url) = true.

(** The dynamic type of the credential is the one its [CredentialType]
    asks for: a [string] for password, an [OAuthCredential] (a MAC key and
    an access token) for oauth. *)
Definition credential_matches (s : ICEServer) : Prop :=
  (CredentialType s = ICECredentialTypePassword
   ∧ ∃ password, Credential s = AnyString password)
  ∨ (CredentialType s = ICECredentialTypeOauth
     ∧ ∃ macKey accessToken,
         Credential s =
           AnyOAuthCredential
             {| MACKey := macKey; AccessToken := accessToken |}).

(** Every URL of the server parses, and none to a TURN or TURNS URL. *)
Definition no_turn_url (s : ICEServer) : Prop :=
  Forall (λ raw, ∃ url, stun.ParseURI raw = Ok url
                        ∧ is_turn (stun.Scheme url) = false) (URLs s).

End ServerProps.

Section ServerParses.
Context `{stun.API}.

(** Every URL of the server parses. *)
Definition all_parse (s : ICEServer) : Prop :=
  Forall (λ raw, ∃ url, stun.ParseURI raw = Ok url) (URLs s).

End ServerParses.

(** The servers of the credential examples. *)
Definition server_without_credentials (credentialType : Z) : ICEServer :=
  {| URLs := ["turn:example.com"]; Username := ""; Credential := AnyNil;
     CredentialType := credentialType |}.

Definition server_with (credential : any) (credentialType : Z)
  : ICEServer :=
  {| URLs := ["turn:example.com"]; Username := "u";
     Credential := credential; CredentialType := credentialType |}.

Definition stun_server : ICEServer :=
  {| URLs := ["stun:example.com"]; Username := ""; Credential := AnyNil;
     CredentialType := 7 |}.

Section RegistryProps.
Import Registry.

(** The transceiver that [createOrReuse] appends for a track. *)
Definition appended (k : RTPCodecType) (d : RTPTransceiverDirection)
    (trk : string) : Transceiver :=
  {| mid := None; kind := k; direction := d;
     sender := Some (newSender trk) |}.

(** What becomes of the registry [ts0] when track [A] is added, its
    Sender removed, and track [B] of the same kind added: [B] takes the
    slot [iA] that [A] had, the registry keeps its length and its mids;
    a further track [C] of that kind goes to another slot, an appended
    one when no other transceiver of [ts0] is reusable. *)
Definition slot_reused (permitsSending : RTPTransceiverDirection → bool)
    (k : RTPCodecType) (d : RTPTransceiverDirection) (A B C : string)
    (ts0 : list Transceiver) : Prop :=
  ∃ ts1 (iA : nat) ts2 ts3,
    createOrReuse permitsSending k d A ts0 = (ts1, iA)
    ∧ removeTrack (newSender A) ts1 = Some ts2
    ∧ createOrReuse permitsSending k d B ts2 = (ts3, iA)
    ∧ length ts3 = length ts1
    ∧ mid <$> ts3 = mid <$> ts1
    ∧ (∃ t, ts3 !! iA = Some t
            ∧ kind t = k ∧ sender t = Some (newSender B))
    ∧ snd (createOrReuse permitsSending k d C ts3) ≠ iA
    ∧ ((∀ (j : nat) t, j ≠ iA → ts0 !! j = Some t →
               reusable permitsSending k t = false) →
       createOrReuse permitsSending k d C ts3
       = ((ts3 ++ [appended k d C])%list, length ts3)).

(** The description has a section with the mid, and the first such
    section lets the remote peer receive: its direction is sendrecv or
    recvonly. *)
Definition remote_receives (desc : list MediaSection) (m : string) : Prop :=
  ∃ (j : nat) sct,
    list_find (λ sct, section_mid sct = Some m) desc = Some (j, sct)
    ∧ (section_direction sct = RTPTransceiverDirectionSendrecv
       ∨ section_direction sct = RTPTransceiverDirectionRecvonly).

(** The registry of [TestAddTransceiverAddTrack_Reuse] after
    [AddTransceiverFromKind]: one video transceiver, receive-only, without
    Sender, not negotiated yet. *)
Definition recvonly_video : list Transceiver :=
  [{| mid := None; kind := RTPCodecTypeVideo;
      direction := RTPTransceiverDirectionRecvonly; sender := None |}].

(** Every direction but inactive permits sending: an instance for the
    examples, under which the receive-only transceiver of the test takes a
    track. *)
Definition not_inactive (d : RTPTransceiverDirection) : bool :=
  negb (bool_decide (d = RTPTransceiverDirectionInactive)).

(** The registry of [TestPeerConnection_Start_Only_Negotiated_Senders]
    before the offer: [AddTrack(track1)] on the empty registry. *)
Definition first_track : list Transceiver :=
  fst (createOrReuse not_inactive RTPCodecTypeVideo
         RTPTransceiverDirectionSendrecv "pion1" []).

(** The answer of the test: the answering peer has no track, so the one
    section of its answer, for mid "0", is receive-only. *)
Definition answer_recvonly : list MediaSection :=
  [{| section_mid := Some "0";
      section_direction := RTPTransceiverDirectionRecvonly |}].

(** A registry with a second video transceiver that has no Sender, and an
    answer with an active section for each of the two. *)
Definition with_free_slot : list Transceiver :=
  (first_track ++ recvonly_video)%list.

Definition answer_both : list MediaSection :=
  [{| section_mid := Some "0";
      section_direction := RTPTransceiverDirectionRecvonly |};
   {| section_mid := Some "1";
      section_direction := RTPTransceiverDirectionSendrecv |}].

End RegistryProps.

(** ** More of the [ICEServer] file: the checks of [urls], URL by URL *)

Section ServerChecks.
Context `{Decls} `{stun.API}.

(** The body of the loop of [urls] on one URL: the parsed URL, with the
    credentials written into it when it is a TURN or TURNS URL, or the
    error that ends the loop. *)
Definition checkURL (s : ICEServer) (raw : string) : result stun.URI :=
  match stun.ParseURI raw with
  | Err err => Err (InvalidAccessError err)
  | Ok url =>
    if is_turn (stun.Scheme url) then turn_credentials s url else Ok url
  end.

(** The conditions under which the [switch] of [urls] lets a TURN or TURNS
    URL pass: a username, a credential, and a credential whose dynamic type
    is the one of the first case that the credential type selects. *)
Definition credentials_accepted (s : ICEServer) : Prop :=
  Username s ≠ "" ∧ Credential s ≠ AnyNil
  ∧ ((CredentialType s = ICECredentialTypePassword
      ∧ ∃ password, Credential s = AnyString password)
     ∨ (CredentialType s ≠ ICECredentialTypePassword
        ∧ CredentialType s = ICECredentialTypeOauth
        ∧ ∃ oauth, Credential s = AnyOAuthCredential oauth)).

(** The cause [urls] reports for a TURN or TURNS URL it rejects. *)
Definition rejection (s : ICEServer) : sentinel :=
  if String.eqb (Username s) "" || any_is_nil (Credential s)
  then ErrNoTurnCredentials else ErrTurnCredentials.

(** What [urls] returns for one URL of the server: the URL as parsed, but
    for the username and password of a TURN or TURNS URL. *)
Definition returned_for (s : ICEServer) (raw : string) (u : stun.URI)
  : Prop :=
  ∃ url,
    stun.ParseURI raw = Ok url
    ∧ stun.Scheme u = stun.Scheme url ∧ stun.Host u = stun.Host url
    ∧ stun.Port u = stun.Port url ∧ stun.Proto u = stun.Proto url
    ∧ (is_turn (stun.Scheme url) = false → u = url)
    ∧ (is_turn (stun.Scheme url) = true →
       stun.Username u = Username s
       ∧ (CredentialType s = ICECredentialTypePassword →
          Credential s = AnyString (stun.Password u))
       ∧ (CredentialType s ≠ ICECredentialTypePassword →
          stun.Password u = stun.Password url)).

(** The server [s] with other URLs. *)
Definition with_URLs (s : ICEServer) (l : list string) : ICEServer :=
  {| URLs := l; Username := Username s; Credential := Credential s;
     CredentialType := CredentialType s |}.

End ServerChecks.

(** ** More of the [ICEServer] file: decoding a server from JSON *)

(** A value as [json.Unmarshal] stores it in an [any]: [nil], a [bool], a
    [float64] (as its 64 bits), a [string], a [[]any] or a
    [map[string]any]. *)
#[warnings="-register-all"]
Inductive dynamic : Type :=
| DNil
| DBool (b : bool)
| DFloat64 (bits : Z)
| DString (s : string)
| DSlice (l : list dynamic)
| DMap (m : gmap string dynamic).

(** The errors of the decoding functions: the two error variables they
    return themselves, and the errors that [json.Unmarshal] makes. *)
Inductive server_error : Set :=
| errInvalidICEServer
| errInvalidICECredentialTypeString
| JSONError (msg : string).

(** [m[key]] for a [map[string]any]: [nil] for a key that is not there. *)
Definition index (m : gmap string dynamic) (key : string) : dynamic :=
  default DNil (m !! key).

(** The loop of [iceserverUnmarshalUrls], from the index [idx], the
    elements of [s] from that index on, and the slice [out]. *)
Fixpoint iceserverUnmarshalUrls_loop (idx : nat) (s : list dynamic)
    (out : list string) : server_error + list string :=
  match s with
  | [] => inr out
  | url :: rest =>
    match url with
    | DString str =>
      iceserverUnmarshalUrls_loop (S idx) rest (<[idx := str]> out)
    | _ => inl errInvalidICEServer
    end
  end.

Definition iceserverUnmarshalUrls (val : dynamic)
  : server_error + list string :=
  match val with
  | DSlice s =>
    let out := replicate (length s) "" in
    iceserverUnmarshalUrls_loop 0 s out
  | _ => inl errInvalidICEServer
  end.

Definition iceserverUnmarshalOauth (val : dynamic)
  : server_error + OAuthCredential :=
  match val with
  | DMap c =>
    match index c "MACKey" with
    | DString macKey =>
      match index c "AccessToken" with
      | DString accessToken =>
        inr {| MACKey := macKey; AccessToken := accessToken |}
      | _ => inl errInvalidICEServer
      end
    | _ => inl errInvalidICEServer
    end
  | _ => inl errInvalidICEServer
  end.

(** ** Values for more examples *)

(** A server with a STUN URL and a TURN URL, and password credentials. *)
Definition stun_turn_server : ICEServer :=
  {| URLs := ["stun:a.example"; "turn:example.com"]; Username := "u";
     Credential := AnyString "p"; CredentialType := 0 |}.

(** A server whose second URL has no scheme, and whose third URL is a TURN
    URL for which it has no credentials. *)
Definition broken_server : ICEServer :=
  {| URLs := ["stun:a.example"; "example.com"; "turn:example.com"];
     Username := ""; Credential := AnyNil; CredentialType := 0 |}.

(** A candidate whose network the package does not know. *)
Definition ic_sctp : ice.Candidate := {|
  ice.ID := "id";
  ice.Foundation := "f";
  ice.Priority := 100;
  ice.CAddress := "192.0.2.1";
  ice.NetworkShort := "sctp";
  ice.CPort := 5000;
  ice.Component := 1;
  ice.Type_ := 1;
  ice.CTCPType := 0;
  ice.RelatedAddress := None;
  ice.Marshal := "";
|}.

(** Two host candidates that differ in [RelatedAddress], [RelatedPort],
    [SDPMid] and [SDPMLineIndex] only. *)
Definition c_host : @ICECandidate Example.decls :=
  @Build_ICECandidate Example.decls
    "id" "f" 100 "192.0.2.1" 1 5000 ICECandidateTypeHost 1 "" 0 "" "0" 0.

Definition c_host' : @ICECandidate Example.decls :=
  @Build_ICECandidate Example.decls
    "id" "f" 100 "192.0.2.1" 1 5000 ICECandidateTypeHost 1
    "198.51.100.7" 9 "" "1" 1.

(** What the decoding of a server uses and the embedded files do not hold:
    [newICECredentialType] of this package, and the interface value that
    holds a decoded JSON value as the credential of a server.  ([any]
    above tells apart the dynamic types that [urls] asserts; [held] says
    where a decoded value falls.) *)
Class Decoding := {
  newICECredentialType : string → server_error + ICECredentialType;
  held : dynamic → any;
}.

(** [held] keeps [nil] and strings, and sends no other decoded value to
    [nil], a [string] or an [OAuthCredential]. *)
Class HeldFaithful `{Decoding} : Prop := {
  held_nil : held DNil = AnyNil;
  held_string : ∀ str, held (DString str) = AnyString str;
  held_other : ∀ val,
    val ≠ DNil → (∀ str, val ≠ DString str) →
    held val ≠ AnyNil
    ∧ (∀ str, held val ≠ AnyString str)
    ∧ (∀ c, held val ≠ AnyOAuthCredential c);
}.

Section Decode.
Context `{Decls} `{Decoding}.

(** A step of [iceserverUnmarshalFields]: from the receiver to the
    receiver as the step leaves it and the error it returns with, if
    any. *)
Definition step : Type := ICEServer → ICEServer * option server_error.

Definition and_then (m k : step) : step :=
  λ s, match m s with
       | (s', None) => k s'
       | (s', Some err) => (s', Some err)
       end.

Definition set_URLs (s : ICEServer) (u : list string) : ICEServer :=
  {| URLs := u; Username := Username s; Credential := Credential s;
     CredentialType := CredentialType s |}.

Definition set_Username (s : ICEServer) (u : string) : ICEServer :=
  {| URLs := URLs s; Username := u; Credential := Credential s;
     CredentialType := CredentialType s |}.

Definition set_CredentialType (s : ICEServer) (t : ICECredentialType)
  : ICEServer :=
  {| URLs := URLs s; Username := Username s; Credential := Credential s;
     CredentialType := t |}.

Definition set_Credential (s : ICEServer) (c : any) : ICEServer :=
  {| URLs := URLs s; Username := Username s; Credential := c;
     CredentialType := CredentialType s |}.

Definition fields_urls (fields : gmap string dynamic) : step :=
  λ s, match fields !! "urls" with
       | Some val =>
         match iceserverUnmarshalUrls val with
         | inl err => (s, Some err)
         | inr u => (set_URLs s u, None)
         end
       | None => (set_URLs s [], None)
       end.

(** A failed assertion [val.(string)] stores the empty string before the
    function returns. *)
Definition fields_username (fields : gmap string dynamic) : step :=
  λ s, match fields !! "username" with
       | Some (DString str) => (set_Username s str, None)
       | Some _ => (set_Username s "", Some errInvalidICEServer)
       | None => (s, None)
       end.

Definition fields_credentialType (fields : gmap string dynamic) : step :=
  λ s, match fields !! "credentialType" with
       | Some (DString ct) =>
         match newICECredentialType ct with
         | inl err => (s, Some err)
         | inr tpe => (set_CredentialType s tpe, None)
         end
       | Some _ => (s, Some errInvalidICEServer)
       | None => (set_CredentialType s ICECredentialTypePassword, None)
       end.

Definition fields_credential (fields : gmap string dynamic) : step :=
  λ s, match fields !! "credential" with
       | Some val =>
         if CredentialType s =? ICECredentialTypePassword then
           (set_Credential s (held val), None)
         else if CredentialType s =? ICECredentialTypeOauth then
           match iceserverUnmarshalOauth val with
           | inl err => (s, Some err)
           | inr c => (set_Credential s (AnyOAuthCredential c), None)
           end
         else (s, Some errInvalidICECredentialTypeString)
       | None => (s, None)
       end.

Definition iceserverUnmarshalFields (fields : gmap string dynamic) : step :=
  and_then (fields_urls fields)
    (and_then (fields_username fields)
       (and_then (fields_credentialType fields)
          (fields_credential fields))).

(** [json.Unmarshal(b, &tmp)] for a [tmp] of type [any]. *)
Variable json_Unmarshal : list Byte.byte → server_error + dynamic.

Definition UnmarshalJSON (b : list Byte.byte) : step :=
  λ s, match json_Unmarshal b with
       | inl err => (s, Some err)
       | inr (DMap m) => iceserverUnmarshalFields m s
       | inr _ => (s, Some errInvalidICEServer)
       end.

End Decode.

(** An instance of [Decoding]: the credential types by their names, and a
    decoded string, boolean or [nil] held as itself, any other decoded
    value as a value of a dynamic type that [urls] rejects. *)
Definition decoding : Decoding := {|
  newICECredentialType raw :=
    if String.eqb raw "password" then inr 0
    else if String.eqb raw "oauth" then inr 1
    else inl errInvalidICECredentialTypeString;
  held val :=
    match val with
    | DNil => AnyNil
    | DString str => AnyString str
    | DBool b => AnyBool b
    | DFloat64 bits => AnyInt bits
    | DSlice _ | DMap _ => AnyBool false
    end;
|}.

(** The fields of a server with a TURN URL, a username and a password. *)
Definition password_fields : gmap string dynamic :=
  {[ "urls" := DSlice [DString "turn:example.com"];
     "username" := DString "u";
     "credential" := DString "p" ]}.

(** Fields whose username is a number. *)
Definition bad_username_fields : gmap string dynamic :=
  {[ "urls" := DSlice [DString "turn:example.com"];
     "username" := DFloat64 0 ]}.

(** A server as a former decoding may have left it. *)
Definition old_server : ICEServer :=
  {| URLs := ["turn:old.example"]; Username := "old";
     Credential := AnyString "secret"; CredentialType := 0 |}.

Section Stored.
Context `{Decls} `{Decoding}.

(** What the fields of a JSON object have to do with the server [s'] that
    a decoding into the receiver [s] has made of them. *)
Definition stored_by (fields : gmap string dynamic) (s s' : ICEServer)
  : Prop :=
  match fields !! "urls" with
  | Some val => val = DSlice (DString <$> URLs s')
  | None => URLs s' = []
  end
  ∧ match fields !! "username" with
    | Some val => val = DString (Username s')
    | None => Username s' = Username s
    end
  ∧ match fields !! "credentialType" with
    | Some val =>
      ∃ ct, val = DString ct
            ∧ newICECredentialType ct = inr (CredentialType s')
    | None => CredentialType s' = ICECredentialTypePassword
    end
  ∧ match fields !! "credential" with
    | Some val =>
      (CredentialType s' = ICECredentialTypePassword
       ∧ Credential s' = held val)
      ∨ (CredentialType s' ≠ ICECredentialTypePassword
         ∧ CredentialType s' = ICECredentialTypeOauth
         ∧ ∃ c, iceserverUnmarshalOauth val = inr c
                ∧ Credential s' = AnyOAuthCredential c)
    | None => Credential s' = Credential s
    end.

End Stored.

(** What decoding [password_fields] makes of a server. *)
Definition password_server : ICEServer :=
  {| URLs := ["turn:example.com"]; Username := "u";
     Credential := AnyString "p"; CredentialType := 0 |}.

(** ** The line filters of [peerconnection_media_test.go] *)

(** The lines that the loop [for scanner.Scan() { l := scanner.Text() }]
    sees for a [bufio.Scanner] over a string, with the split function
    [ScanLines] and the buffer that a new scanner has: the text is cut at
    every newline, a last line without newline counts when it is not
    empty, one carriage return at the end of a line is dropped, and the
    scan stops without a word at the first line that does not fit the
    buffer of [bufio.MaxScanTokenSize] bytes. *)

Definition newline : ascii := ascii_of_nat 10.
Definition carriage_return : ascii := ascii_of_nat 13.

(** [scan cur s]: the lines of [s], the first one continuing [cur]. *)
Fixpoint scan (cur s : string) : list string :=
  match s with
  | EmptyString => if String.eqb cur "" then [] else [cur]
  | String c rest =>
    if Ascii.eqb c newline then cur :: scan "" rest
    else scan (cur +:+ String c "") rest
  end.

(** [dropCR] of package [bufio]. *)
Fixpoint dropCR (data : string) : string :=
  match data with
  | EmptyString => EmptyString
  | String c EmptyString =>
    if Ascii.eqb c carriage_return then EmptyString else data
  | String c rest => String c (dropCR rest)
  end.

Definition MaxScanTokenSize : Z := 64 * 1024.

Definition fits (line : string) : bool :=
  Z.of_nat (String.length line) <? MaxScanTokenSize.

Fixpoint while_fits (lines : list string) : list string :=
  match lines with
  | [] => []
  | l :: rest => if fits l then l :: while_fits rest else []
  end.

Definition scanned (text : string) : list string :=
  dropCR <$> while_fits (scan "" text).

(** [strings.HasPrefix(l, prefix)] *)
Definition HasPrefix (l prefix : string) : bool := String.prefix prefix l.

(** The loop of [filterSsrc], from the lines still to come and the text
    built so far. *)
Fixpoint filterSsrc_loop (lines : list string) (filteredSDP : string)
  : string :=
  match lines with
  | [] => filteredSDP
  | l :: rest =>
    if HasPrefix l "a=ssrc" then filterSsrc_loop rest filteredSDP
    else filterSsrc_loop rest (filteredSDP +:+ l +:+ String newline "")
  end.

Definition filterSsrc (offer : string) : string :=
  filterSsrc_loop (scanned offer) "".

Fixpoint filterSDPExtensions_loop (lines : list string)
    (filteredSDP : string) : string :=
  match lines with
  | [] => filteredSDP
  | l :: rest =>
    if HasPrefix l "a=extmap" then filterSDPExtensions_loop rest filteredSDP
    else filterSDPExtensions_loop rest
           (filteredSDP +:+ l +:+ String newline "")
  end.

Definition filterSDPExtensions (offer : string) : string :=
  filterSDPExtensions_loop (scanned offer) "".

(** The text made of the given lines, each followed by a newline. *)
Fixpoint unlines (lines : list string) : string :=
  match lines with
  | [] => ""
  | l :: rest => l +:+ String newline "" +:+ unlines rest
  end.

(** The line holds no newline. *)
Fixpoint one_line (l : string) : bool :=
  match l with
  | EmptyString => true
  | String c rest => negb (Ascii.eqb c newline) && one_line rest
  end.

(** The line can come out of a scan: no newline in it, and short enough
    for the buffer. *)
Definition scannable (l : string) : Prop :=
  one_line l = true ∧ fits l = true.

(** The lines that a filter for [prefix] keeps. *)
Definition kept (prefix : string) (lines : list string) : list string :=
  List.filter (λ l, negb (HasPrefix l prefix)) lines.

(** A text whose second line is an SSRC line, with line ends of both
    kinds and an extension line. *)
Definition sdp_lines : list string :=
  ["v=0" +:+ String carriage_return ""; "a=ssrc:1 cname:x";
   "a=extmap:1 urn:x"; "a=mid:0"].

(** A line of [MaxScanTokenSize] bytes. *)
Definition long_line : string :=
  String.string_of_list_ascii
    (replicate (Z.to_nat MaxScanTokenSize) "a"%char).
(** * Candidate types *)

Lemma known_kinds_elem (raw : string) :
  raw ∈ known_kinds ↔
  raw = "host" ∨ raw = "srflx" ∨ raw = "prflx" ∨ raw = "relay".
Proof.
  unfold known_kinds. rewrite !elem_of_cons, elem_of_nil. tauto.
Qed.

Lemma known_types_elem (t : ICECandidateType) :
  t ∈ known_types ↔ t = 1 ∨ t = 2 ∨ t = 3 ∨ t = 4.
Proof.
  unfold known_types. rewrite !elem_of_cons, elem_of_nil.
  unfold ICECandidateTypeHost, ICECandidateTypeSrflx,
    ICECandidateTypePrflx, ICECandidateTypeRelay.
  tauto.
Qed.

(** The [switch] of [NewICECandidateType], one equation per case. *)
Lemma NewICECandidateType_cases (raw : string) :
  (raw = "host"
   ∧ NewICECandidateType raw = (ICECandidateTypeHost, None))
  ∨ (raw = "srflx"
     ∧ NewICECandidateType raw = (ICECandidateTypeSrflx, None))
  ∨ (raw = "prflx"
     ∧ NewICECandidateType raw = (ICECandidateTypePrflx, None))
  ∨ (raw = "relay"
     ∧ NewICECandidateType raw = (ICECandidateTypeRelay, None))
  ∨ ((raw ∉ known_kinds)
     ∧ NewICECandidateType raw =
         (ICECandidateTypeUnknown,
          Some (Errorf errICECandidateTypeUnknown raw))).
Proof.
  unfold NewICECandidateType, iceCandidateTypeHostStr,
    iceCandidateTypeSrflxStr, iceCandidateTypePrflxStr,
    iceCandidateTypeRelayStr.
  destruct (String.eqb_spec raw "host") as [ -> | Hh]; [tauto|].
  destruct (String.eqb_spec raw "srflx") as [ -> | Hs]; [tauto|].
  destruct (String.eqb_spec raw "prflx") as [ -> | Hp]; [tauto|].
  destruct (String.eqb_spec raw "relay") as [ -> | Hr]; [tauto|].
  do 4 right. split; [|reflexivity].
  rewrite known_kinds_elem. tauto.
Qed.

Section CandidateTypeFacts.
Context `{Decls} `{ice.API}.

Lemma String_known (t : ICECandidateType) :
  t ∈ known_types → ICECandidateType_String t ∈ known_kinds.
Proof.
  rewrite known_types_elem, known_kinds_elem.
  intros [ -> | [ -> | [ -> | -> ]]]; cbn; tauto.
Qed.

Lemma NewICECandidateType_String (t : ICECandidateType) :
  t ∈ known_types →
  NewICECandidateType (ICECandidateType_String t) = (t, None).
Proof.
  rewrite known_types_elem. intros [ -> | [ -> | [ -> | -> ]]]; reflexivity.
Qed.

Lemma toICE_unknown (c : ICECandidate) :
  Typ c ∉ known_types →
  toICE c =
    Err (Errorf errICECandidateTypeUnknown
           (ICECandidateType_String (Typ c))).
Proof.
  rewrite known_types_elem. intros Hc. unfold toICE.
  unfold ICECandidateTypeHost, ICECandidateTypeSrflx,
    ICECandidateTypePrflx, ICECandidateTypeRelay.
  destruct (Z.eqb_spec (Typ c) 1); [tauto|].
  destruct (Z.eqb_spec (Typ c) 2); [tauto|].
  destruct (Z.eqb_spec (Typ c) 3); [tauto|].
  destruct (Z.eqb_spec (Typ c) 4); [tauto|].
  reflexivity.
Qed.

(** Both conversions go through the same four cases and differ in the
    default case only. *)
Lemma convert_cases (t : ice.CandidateType) :
  (ice_known t
   ∧ ∃ r, r ∈ known_types
          ∧ getCandidateType t = (r, None)
          ∧ convertTypeFromICE t = (r, None))
  ∨ (¬ ice_known t
     ∧ getCandidateType t =
         (ICECandidateTypeUnknown,
          Some (Errorf errICEInvalidConvertCandidateType
                  (ice.CandidateType_String t)))
     ∧ convertTypeFromICE t =
         (t, Some (Errorf errICECandidateTypeUnknown
                     (ice.CandidateType_String t)))).
Proof.
  unfold getCandidateType, convertTypeFromICE, ice_known.
  destruct (Z.eqb_spec t ice.CandidateTypeHost).
  { left. split; [tauto|]. exists ICECandidateTypeHost.
    rewrite known_types_elem. cbv. intuition reflexivity. }
  destruct (Z.eqb_spec t ice.CandidateTypeServerReflexive).
  { left. split; [tauto|]. exists ICECandidateTypeSrflx.
    rewrite known_types_elem. cbv. intuition reflexivity. }
  destruct (Z.eqb_spec t ice.CandidateTypePeerReflexive).
  { left. split; [tauto|]. exists ICECandidateTypePrflx.
    rewrite known_types_elem. cbv. intuition reflexivity. }
  destruct (Z.eqb_spec t ice.CandidateTypeRelay).
  { left. split; [tauto|]. exists ICECandidateTypeRelay.
    rewrite known_types_elem. cbv. intuition reflexivity. }
  right. tauto.
Qed.

End CandidateTypeFacts.

(** C3.  [NewICECandidateType] succeeds on exactly the four kinds "host",
    "srflx", "prflx" and "relay": on those it returns one of the four
    typed values and no error, on every other string it returns
    [ICECandidateTypeUnknown] and an error that wraps
    [errICECandidateTypeUnknown].  [toICE] of a candidate whose [Typ] is
    none of the four typed values fails with an error that wraps
    [errICECandidateTypeUnknown]. *)
Theorem NewICECandidateType_exactly_known `{Decls} `{ice.API} :
  (∀ raw : string,
     (raw ∈ known_kinds ↔
      ∃ t, t ∈ known_types ∧ NewICECandidateType raw = (t, None))
     ∧ (raw ∈ known_kinds ↔ snd (NewICECandidateType raw) = None)
     ∧ (raw ∉ known_kinds ↔
        NewICECandidateType raw =
          (ICECandidateTypeUnknown,
           Some (Errorf errICECandidateTypeUnknown raw))))
  ∧ (∀ c : ICECandidate,
       Typ c ∉ known_types →
       ∃ err, toICE c = Err err
              ∧ errors_Is err errICECandidateTypeUnknown = true).
Proof.
  split.
  - intros raw.
    destruct (NewICECandidateType_cases raw)
      as [[Hr E] | [[Hr E] | [[Hr E] | [[Hr E] | [Hn E]]]]].
    1-4: assert (Hin : fst (NewICECandidateType raw) ∈ known_types)
           by (rewrite E; apply known_types_elem; cbv; tauto).
    1-4: assert (Hk : raw ∈ known_kinds) by (apply known_kinds_elem; tauto).
    1-4: rewrite E in *; cbn in Hin.
    1-4: split; [|split].
    1,4,7,10: split; [intros _; eexists; split; [exact Hin|reflexivity]
                     |intros _; exact Hk].
    1,3,5,7: split; [reflexivity|intros _; exact Hk].
    1-4: split; [contradiction|discriminate].
    split; [|split].
    + split; [contradiction|].
      intros (t & _ & Ht). rewrite E in Ht. discriminate.
    + rewrite E. cbn. split; [contradiction|discriminate].
    + split; [intros _; exact E|intros _; exact Hn].
  - intros c Hc. eexists. split; [apply toICE_unknown, Hc|reflexivity].
Qed.

Lemma NewICECandidateType_exactly_known_witness :
  ∃ err,
    @toICE Example.decls Example.iceAPI
      (@Build_ICECandidate Example.decls
         "id" "f" 100 "192.0.2.1" 1 5000 7 1 "" 0 "" "0" 0) = Err err
    ∧ errors_Is err errICECandidateTypeUnknown = true.
Proof.
  apply (proj2 (@NewICECandidateType_exactly_known
                  Example.decls Example.iceAPI)).
  rewrite known_types_elem. cbn. lia.
Defined.

(** * Round trips *)

Section RoundTrip.
Context `{Decls} `{ice.API}.


End RoundTrip.

(** ** Fields and numbers of the wire form *)










Section WireFacts.
Context `{Decls}.




End WireFacts.



(** The text of the server-reflexive candidate [c_srflx], which has no
    related address: the related address field is empty.  It is the text
    that [ToJSON] exports after "candidate:" with the instance of package
    [ice] of the examples, and it reads back as [c_srflx] without its
    stats id. *)
Example toWireForm_c_srflx :
  toWireForm c_srflx
  = Ok "f 1 udp 100 192.0.2.1 5000 typ srflx raddr  rport 0"
  ∧ ICECandidateInit.Candidate
      (@ToJSON Example.decls Example.iceAPI c_srflx)
    = "candidate:f 1 udp 100 192.0.2.1 5000 typ srflx raddr  rport 0"
  ∧ fromWireForm "f 1 udp 100 192.0.2.1 5000 typ srflx raddr  rport 0"
      "0" 0
    = Ok (@Build_ICECandidate Example.decls
            "" "f" 100 "192.0.2.1" 1 5000 ICECandidateTypeSrflx 1 "" 0 ""
            "0" 0).
Proof. vm_compute. auto. Qed.

(** * The two conversions from [ice.CandidateType] *)

(** C10, as stated, fails: on the value 5 of [ice.CandidateType] (a
    [byte]), which is none of the four candidate types,
    [getCandidateType] returns [ICECandidateTypeUnknown] and
    [convertTypeFromICE] returns [ICECandidateType(5)]. *)
Lemma convertTypeFromICE_differs_at_5 :
  @getCandidateType Example.iceAPI 5
  = (ICECandidateTypeUnknown,
     Some (Errorf errICEInvalidConvertCandidateType
             "Unknown candidate type"))
  ∧ @convertTypeFromICE Example.iceAPI 5
    = (5, Some (Errorf errICECandidateTypeUnknown "Unknown candidate type"))
  ∧ fst (@getCandidateType Example.iceAPI 5)
    ≠ fst (@convertTypeFromICE Example.iceAPI 5).
Proof.
  split; [reflexivity|]. split; [reflexivity|]. cbn. discriminate.
Qed.

(** Whatever the four constants of package [ice] are, some value among
    1, ..., 5 is none of them, and there the two conversions return
    different values. *)
Lemma convert_differ_somewhere `{ice.API} :
  ∃ t : ice.CandidateType,
    1 ≤ t ≤ 5
    ∧ fst (getCandidateType t) ≠ fst (convertTypeFromICE t).
Proof.
  assert (Hout : ∃ t, 1 ≤ t ≤ 5 ∧ ¬ ice_known t).
  { unfold ice_known.
    destruct (decide (ice_known 1)) as [K1|N1];
      [|exists 1; split; [lia|exact N1]].
    destruct (decide (ice_known 2)) as [K2|N2];
      [|exists 2; split; [lia|exact N2]].
    destruct (decide (ice_known 3)) as [K3|N3];
      [|exists 3; split; [lia|exact N3]].
    destruct (decide (ice_known 4)) as [K4|N4];
      [|exists 4; split; [lia|exact N4]].
    exists 5. split; [lia|]. unfold ice_known in *. lia. }
  destruct Hout as (t & Ht & Hn). exists t. split; [exact Ht|].
  destruct (convert_cases t) as [[Hk _]|(_ & Eg & Ec)]; [contradiction|].
  rewrite Eg, Ec. cbn. unfold ICECandidateTypeUnknown. lia.
Qed.

(** C10, amended.  [getCandidateType] and [convertTypeFromICE] agree on
    whether an error is returned, for every input.  On the four candidate
    types of their [switch] they return the same value and no error.  On
    every other input both return an error, [getCandidateType] with
    [ICECandidateTypeUnknown] and [convertTypeFromICE] with the numeric
    value of its input; so the values returned are equal exactly on the
    four candidate types and on the input 0. *)
Theorem getCandidateType_convertTypeFromICE `{ice.API}
    (t : ice.CandidateType) :
  (snd (getCandidateType t) = None ↔ snd (convertTypeFromICE t) = None)
  ∧ ((ice_known t
      ∧ getCandidateType t = convertTypeFromICE t
      ∧ snd (getCandidateType t) = None)
     ∨ (¬ ice_known t
        ∧ fst (getCandidateType t) = ICECandidateTypeUnknown
        ∧ fst (convertTypeFromICE t) = t
        ∧ snd (getCandidateType t) ≠ None
        ∧ snd (convertTypeFromICE t) ≠ None))
  ∧ (fst (getCandidateType t) = fst (convertTypeFromICE t)
     ↔ ice_known t ∨ t = 0).
Proof.
  destruct (convert_cases t) as [(Hk & r & Hr & Eg & Ec)|(Hn & Eg & Ec)];
    rewrite Eg, Ec; cbn [fst snd].
  - split; [tauto|]. split; [left; tauto|]. tauto.
  - split; [split; discriminate|].
    split; [right; repeat split; auto; discriminate|].
    unfold ICECandidateTypeUnknown. split; [auto|].
    intros [Hk|Ht]; [contradiction|congruence].
Qed.

(** * Export to JSON *)

(** C5.  [ToJSON] returns an [ICECandidateInit] for every candidate.  Its
    [SDPMid] and [SDPMLineIndex] point to the candidate's.  Its
    [Candidate] is "candidate:" followed by the wire form that package
    [ice] marshals when [toICE] succeeds, and is exactly "candidate:" when
    [toICE] fails, as it does for every candidate whose type is none of
    the four known ones. *)
Theorem ToJSON_total `{Decls} `{ice.API} (c : ICECandidate) :
  ICECandidateInit.SDPMid (ToJSON c) = Some (SDPMid c)
  ∧ ICECandidateInit.SDPMLineIndex (ToJSON c) = Some (SDPMLineIndex c)
  ∧ ((∃ ic, toICE c = Ok ic
            ∧ ICECandidateInit.Candidate (ToJSON c)
              = "candidate:" +:+ ice.Marshal ic)
     ∨ (∃ err, toICE c = Err err
               ∧ ICECandidateInit.Candidate (ToJSON c) = "candidate:"))
  ∧ (Typ c ∉ known_types →
     ICECandidateInit.Candidate (ToJSON c) = "candidate:").
Proof.
  split; [reflexivity|]. split; [reflexivity|]. split.
  - unfold ToJSON. destruct (toICE c) as [ic|err].
    + left. exists ic. split; reflexivity.
    + right. exists err. split; reflexivity.
  - intros Hc. unfold ToJSON. rewrite (toICE_unknown c Hc). reflexivity.
Qed.

Lemma ToJSON_total_witness :
  ICECandidateInit.Candidate
    (@ToJSON Example.decls Example.iceAPI c_unknown) = "candidate:".
Proof.
  apply (@ToJSON_total Example.decls Example.iceAPI c_unknown).
  rewrite known_types_elem. cbn. lia.
Defined.

(** * Related address of a converted candidate *)

(** C6, as stated, fails: the server-reflexive candidate [ic_srflx], which
    package [ice] builds from a candidate without related address,
    converts to a candidate of type srflx whose [RelatedAddress] is empty
    and whose [RelatedPort] is 0. *)
Lemma newICECandidateFromICE_srflx_unset :
  ∃ c, @newICECandidateFromICE Example.decls Example.iceAPI ic_srflx "0" 0
       = Ok c
       ∧ Typ c = ICECandidateTypeSrflx
       ∧ RelatedAddress c = "" ∧ RelatedPort c = 0
       ∧ ¬ (related_set c ↔ translated c).
Proof.
  eexists. split; [reflexivity|]. cbn.
  split; [reflexivity|]. split; [reflexivity|]. split; [reflexivity|].
  unfold related_set, translated. cbn. intros [_ Hset].
  destruct Hset as [Hset _]; [|contradiction].
  apply elem_of_cons. left. reflexivity.
Qed.

(** C6, amended.  A candidate converted from an ICE-agent candidate takes
    its [RelatedAddress] and [RelatedPort] from the related address the
    agent candidate reports, the port cut to a [uint16], and leaves both
    at their zero values when it reports none; the type is not looked at.
    So the two fields are set exactly when the agent candidate reports a
    related address with a non-empty address and a port that is not 0
    modulo 65536. *)
Theorem newICECandidateFromICE_related `{Decls} `{ice.API}
    (candidate : ice.Candidate) (sdpMid : string) (sdpMLineIndex : Z)
    (c : ICECandidate) :
  newICECandidateFromICE candidate sdpMid sdpMLineIndex = Ok c →
  match ice.RelatedAddress candidate with
  | Some rel =>
    RelatedAddress c = ice.Address rel
    ∧ RelatedPort c = ice.Port rel `mod` 65536
  | None => RelatedAddress c = "" ∧ RelatedPort c = 0
  end
  ∧ (related_set c ↔
     ∃ rel, ice.RelatedAddress candidate = Some rel
            ∧ ice.Address rel ≠ ""
            ∧ ice.Port rel `mod` 65536 ≠ 0).
Proof.
  unfold newICECandidateFromICE, related_set.
  destruct (convertTypeFromICE (ice.Type_ candidate)) as [typ [err|]];
    [discriminate|].
  destruct (NewICEProtocol (ice.NetworkShort candidate)) as [protocol|err];
    [|discriminate].
  cbn [bind].
  destruct (ice.RelatedAddress candidate) as [rel|]; intros [= <-]; cbn.
  - split; [split; reflexivity|]. unfold uint16. split.
    + intros [Ha Hp]. exists rel. auto.
    + intros (rel' & [= <-] & Ha & Hp). auto.
  - split; [split; reflexivity|]. split.
    + intros [Ha _]. contradiction.
    + intros (rel' & Hrel & _). discriminate.
Qed.

Lemma newICECandidateFromICE_related_witness :
  ∃ c, @newICECandidateFromICE Example.decls Example.iceAPI ic_host "0" 0
       = Ok c
       ∧ RelatedAddress c = "" ∧ RelatedPort c = 0.
Proof.
  eexists. split; [reflexivity|].
  apply (@newICECandidateFromICE_related Example.decls Example.iceAPI
           ic_host "0" 0 _ eq_refl).
Defined.

(** * Validation of an ICE server *)

Section ServerFacts.
Context `{Decls} `{stun.API}.

Lemma turn_credentials_Ok (s : ICEServer) (url url' : stun.URI) :
  turn_credentials s url = Ok url' →
  Username s ≠ "" ∧ Credential s ≠ AnyNil ∧ credential_matches s.
Proof.
  unfold turn_credentials, credential_matches.
  destruct (String.eqb_spec (Username s) "") as [Eu|Nu];
    [discriminate|].
  destruct (Credential s) as [|password|[macKey accessToken]|o|b|n] eqn:Ec;
    cbn [any_is_nil orb]; try discriminate;
    destruct (Z.eqb_spec (CredentialType s) ICECredentialTypePassword);
    try discriminate;
    try (destruct (Z.eqb_spec (CredentialType s) ICECredentialTypeOauth));
    try discriminate; intros _; (split; [exact Nu|]);
    (split; [discriminate|]); eauto.
Qed.

Lemma turn_credentials_Err (s : ICEServer) (url : stun.URI) (err : error) :
  turn_credentials s url = Err err → is_InvalidAccessError err.
Proof.
  unfold turn_credentials, is_InvalidAccessError.
  destruct (_ || _); [intros [= <-]; eauto|].
  destruct (_ =? _);
    [destruct (Credential s); intros [= <-]; eauto|].
  destruct (_ =? _);
    [destruct (Credential s); intros [= <-]; eauto|].
  intros [= <-]; eauto.
Qed.

Lemma turn_credentials_NoTurnCredentials (s : ICEServer) (url : stun.URI) :
  Username s = "" ∨ Credential s = AnyNil →
  turn_credentials s url
  = Err (InvalidAccessError (Sentinel ErrNoTurnCredentials)).
Proof.
  unfold turn_credentials. intros [-> | ->]; [reflexivity|].
  rewrite orb_true_r. reflexivity.
Qed.

(** In the loop of [urls], [s.parseURL(i)] parses the URL at index [i]. *)
Lemma parseURL_lookup (s : ICEServer) (i : nat) (raw : string) :
  URLs s !! i = Some raw → parseURL s i = Some (stun.ParseURI raw).
Proof. intros Hi. unfold parseURL. rewrite Hi. reflexivity. Qed.

(** Every error of [urls] is an [InvalidAccessError]. *)
Lemma urls_loop_Err (s : ICEServer) (rest : list string)
    (acc : list stun.URI) (err : error) :
  urls_loop s rest acc = Err err → is_InvalidAccessError err.
Proof.
  revert acc. induction rest as [|raw rest IH]; intros acc; cbn.
  - discriminate.
  - destruct (stun.ParseURI raw) as [url|e].
    + destruct (is_turn (stun.Scheme url)); [|apply IH].
      destruct (turn_credentials s url) as [url'|e] eqn:Et; cbn [bind].
      * apply IH.
      * intros [= <-]. eapply turn_credentials_Err, Et.
    + intros [= <-]. unfold is_InvalidAccessError. eauto.
Qed.

(** When [urls] succeeds, every TURN or TURNS URL passed the checks on the
    credentials. *)
Lemma urls_loop_Ok_turn (s : ICEServer) (rest : list string)
    (acc us : list stun.URI) (raw : string) (url : stun.URI) :
  urls_loop s rest acc = Ok us →
  raw ∈ rest → stun.ParseURI raw = Ok url →
  is_turn (stun.Scheme url) = true →
  ∃ url', turn_credentials s url = Ok url'.
Proof.
  revert acc. induction rest as [|raw0 rest IH]; intros acc Hok Hin Hp Ht.
  - apply elem_of_nil in Hin. contradiction.
  - cbn in Hok. apply elem_of_cons in Hin as [<-|Hin].
    + rewrite Hp, Ht in Hok.
      destruct (turn_credentials s url) as [url'|e]; [eauto|discriminate].
    + destruct (stun.ParseURI raw0) as [url0|e]; [|discriminate].
      destruct (is_turn (stun.Scheme url0)); [|eapply IH; eauto].
      destruct (turn_credentials s url0) as [url0'|e]; [|discriminate].
      cbn [bind] in Hok. eapply IH; eauto.
Qed.

(** Without TURN or TURNS URL, [urls] returns the parsed URLs, in order. *)
Lemma urls_loop_no_turn (s : ICEServer) (rest : list string)
    (acc : list stun.URI) :
  Forall (λ raw, ∃ url, stun.ParseURI raw = Ok url
                        ∧ is_turn (stun.Scheme url) = false) rest →
  ∃ us, urls_loop s rest acc = Ok (acc ++ us)%list
        ∧ Forall2 (λ raw url, stun.ParseURI raw = Ok url) rest us.
Proof.
  intros Hall. revert acc.
  induction Hall as [|raw rest (url & Hp & Ht) _ IH]; intros acc.
  - exists []. rewrite app_nil_r. split; [reflexivity|constructor].
  - destruct (IH (acc ++ [url])%list) as (us & Hus & Hall2).
    exists (url :: us). cbn. rewrite Hp, Ht, Hus, <- app_assoc.
    split; [reflexivity|]. constructor; assumption.
Qed.

Lemma validate_has_turn (s : ICEServer) :
  has_turn_url s →
  (validate s = None →
   Username s ≠ "" ∧ Credential s ≠ AnyNil ∧ credential_matches s)
  ∧ (validate s ≠ None →
     ∃ cause, validate s = Some (InvalidAccessError cause)).
Proof.
  intros (raw & url & Hin & Hp & Ht). unfold validate, urls.
  destruct (urls_loop s (URLs s) []) as [us|err] eqn:E; split.
  - intros _.
    destruct (urls_loop_Ok_turn _ _ _ _ _ _ E Hin Hp Ht) as [url' Hc].
    eapply turn_credentials_Ok, Hc.
  - intros Hn. contradiction.
  - discriminate.
  - intros _. destruct (urls_loop_Err _ _ _ _ E) as [cause ->]. eauto.
Qed.

End ServerFacts.

Section ServerSharp.
Context `{Decls} `{stun.API}.

Lemma turn_credentials_matches (s : ICEServer) (url : stun.URI) :
  Username s ≠ "" → Credential s ≠ AnyNil →
  ICECredentialTypePassword ≠ ICECredentialTypeOauth →
  credential_matches s →
  ∃ url', turn_credentials s url = Ok url'.
Proof.
  intros Hu Hc Hd Hm. unfold turn_credentials.
  destruct (String.eqb_spec (Username s) ""); [contradiction|].
  destruct Hm as [[Et [p Ep]]|[Et (k & a & Ep)]]; rewrite Et, Ep; cbn.
  - rewrite Z.eqb_refl. eauto.
  - destruct (Z.eqb_spec ICECredentialTypeOauth ICECredentialTypePassword);
      [congruence|].
    rewrite Z.eqb_refl. eauto.
Qed.

Lemma turn_credentials_mismatch (s : ICEServer) (url : stun.URI) :
  Username s ≠ "" → Credential s ≠ AnyNil →
  ¬ credential_matches s →
  turn_credentials s url
  = Err (InvalidAccessError (Sentinel ErrTurnCredentials)).
Proof.
  intros Hu Hc Hm.
  destruct (turn_credentials s url) as [url'|err] eqn:E.
  { apply turn_credentials_Ok in E. tauto. }
  revert E. unfold turn_credentials.
  destruct (String.eqb_spec (Username s) ""); [contradiction|].
  destruct (Credential s); [contradiction|..]; cbn [any_is_nil orb];
    repeat destruct (_ =? _); congruence.
Qed.

Lemma urls_loop_accepted (s : ICEServer) (rest : list string)
    (acc : list stun.URI) :
  Forall (λ raw, ∃ url, stun.ParseURI raw = Ok url) rest →
  (∀ url, ∃ url', turn_credentials s url = Ok url') →
  ∃ us, urls_loop s rest acc = Ok us.
Proof.
  intros Hall Hok. revert acc.
  induction Hall as [|raw rest [url Hp] _ IH]; intros acc; cbn.
  - eauto.
  - rewrite Hp. destruct (is_turn (stun.Scheme url)); [|apply IH].
    destruct (Hok url) as [url' ->]. cbn [bind]. apply IH.
Qed.

Lemma urls_loop_rejected (s : ICEServer) (rest : list string)
    (acc : list stun.URI) (err : error) :
  Forall (λ raw, ∃ url, stun.ParseURI raw = Ok url) rest →
  (∃ raw url, raw ∈ rest ∧ stun.ParseURI raw = Ok url
              ∧ is_turn (stun.Scheme url) = true) →
  (∀ url, turn_credentials s url = Err err) →
  urls_loop s rest acc = Err err.
Proof.
  intros Hall (raw & url & Hin & Hp & Ht) Herr. revert acc.
  induction Hall as [|raw0 rest [url0 Hp0] _ IH]; intros acc; cbn.
  - apply elem_of_nil in Hin. contradiction.
  - rewrite Hp0.
    destruct (is_turn (stun.Scheme url0)) eqn:Et0;
      [rewrite Herr; reflexivity|].
    apply elem_of_cons in Hin as [->|Hin]; [congruence|].
    apply IH, Hin.
Qed.

End ServerSharp.

(** C1.  Validation of a server with a TURN or TURNS URL fails with an
    [InvalidAccessError] whenever the username is empty or the credential
    is [nil].  With "turn:example.com" parsed as a TURN URL, the server
    with that URL, no username and no credential fails, with
    [ErrNoTurnCredentials] as the cause, and the server with username "u",
    the string credential "p" and credential type password passes. *)
Theorem validate_requires_credentials `{Decls} `{stun.API} :
  (∀ s : ICEServer,
     has_turn_url s → Username s = "" ∨ Credential s = AnyNil →
     ∃ cause, validate s = Some (InvalidAccessError cause))
  ∧ (∀ (url : stun.URI) (credentialType : ICECredentialType),
       stun.ParseURI "turn:example.com" = Ok url →
       is_turn (stun.Scheme url) = true →
       validate (server_without_credentials credentialType)
       = Some (InvalidAccessError (Sentinel ErrNoTurnCredentials))
       ∧ validate (server_with (AnyString "p") ICECredentialTypePassword)
         = None).
Proof.
  split.
  - intros s Ht Hc. destruct (validate_has_turn s Ht) as [Hnone Hsome].
    destruct (validate s) as [err|] eqn:E.
    + apply Hsome. discriminate.
    + destruct (Hnone eq_refl) as (Hu & Hn & _). tauto.
  - intros url credentialType Hp Ht. unfold validate, urls. cbn.
    rewrite Hp, Ht. unfold turn_credentials. cbn.
    rewrite Z.eqb_refl. split; reflexivity.
Qed.

Lemma Example_has_turn_url (username : string) (credential : any)
    (credentialType : Z) :
  @has_turn_url Example.stunAPI
    {| URLs := ["turn:example.com"]; Username := username;
       Credential := credential; CredentialType := credentialType |}.
Proof.
  exists "turn:example.com". eexists.
  split; [apply elem_of_cons; left; reflexivity|].
  split; [vm_compute; reflexivity|reflexivity].
Qed.

Lemma validate_requires_credentials_witness :
  (∃ cause,
     @validate Example.decls Example.stunAPI (server_without_credentials 0)
     = Some (InvalidAccessError cause))
  ∧ @validate Example.decls Example.stunAPI (server_without_credentials 0)
    = Some (InvalidAccessError (Sentinel ErrNoTurnCredentials))
  ∧ @validate Example.decls Example.stunAPI
      (server_with (AnyString "p") 0) = None.
Proof.
  split.
  - apply (proj1 (@validate_requires_credentials
                    Example.decls Example.stunAPI)).
    + apply Example_has_turn_url.
    + left. reflexivity.
  - apply (proj2 (@validate_requires_credentials
                    Example.decls Example.stunAPI)
             _ 0 eq_refl eq_refl).
Defined.

(** C2.  For a server with a TURN or TURNS URL, a username and a
    credential, validation succeeds only when the dynamic type of the
    credential is the one the credential type asks for: a string for
    password, an [OAuthCredential] for oauth.  Every mismatch yields an
    [InvalidAccessError]: among them the credential type oauth with a
    string credential, and every credential type that is neither password
    nor oauth.  When moreover every URL parses, the cause of the error is
    [ErrTurnCredentials], and validation succeeds exactly when the types
    match. *)
Theorem validate_credential_type `{Decls} `{stun.API} (s : ICEServer) :
  has_turn_url s → Username s ≠ "" → Credential s ≠ AnyNil →
  (validate s = None → credential_matches s)
  ∧ (¬ credential_matches s →
     ∃ cause, validate s = Some (InvalidAccessError cause))
  ∧ (ICECredentialTypePassword ≠ ICECredentialTypeOauth →
     CredentialType s = ICECredentialTypeOauth →
     (∃ password, Credential s = AnyString password) →
     ∃ cause, validate s = Some (InvalidAccessError cause))
  ∧ (CredentialType s ≠ ICECredentialTypePassword →
     CredentialType s ≠ ICECredentialTypeOauth →
     ∃ cause, validate s = Some (InvalidAccessError cause))
  ∧ (all_parse s →
     (¬ credential_matches s →
      validate s = Some (InvalidAccessError (Sentinel ErrTurnCredentials)))
     ∧ (ICECredentialTypePassword ≠ ICECredentialTypeOauth →
        (validate s = None ↔ credential_matches s))).
Proof.
  intros Ht Hu Hc. destruct (validate_has_turn s Ht) as [Hnone Hsome].
  assert (Hmis : ¬ credential_matches s →
                 ∃ cause, validate s = Some (InvalidAccessError cause)).
  { intros Hm. apply Hsome. intros E. apply Hm, Hnone, E. }
  split; [intros E; apply Hnone, E|].
  split; [exact Hmis|].
  split.
  { intros Hd Eo [password Ep]. apply Hmis.
    intros [[Et _]|[_ (k & a & Ea)]]; congruence. }
  split.
  { intros Np No. apply Hmis. intros [[Et _]|[Et _]]; contradiction. }
  intros Hall. split.
  - intros Hm. unfold validate, urls.
    rewrite (urls_loop_rejected s (URLs s) []
               (InvalidAccessError (Sentinel ErrTurnCredentials)));
      [reflexivity|exact Hall|exact Ht|].
    intros url. apply turn_credentials_mismatch; assumption.
  - intros Hd. split; [intros E; apply Hnone, E|].
    intros Hm. unfold validate, urls.
    destruct (urls_loop_accepted s (URLs s) [] Hall) as [us ->];
      [|reflexivity].
    intros url. apply turn_credentials_matches; assumption.
Qed.

Lemma validate_credential_type_witness :
  @validate Example.decls Example.stunAPI (server_with (AnyString "p") 1)
  = Some (InvalidAccessError (Sentinel ErrTurnCredentials)).
Proof.
  assert (Hm : ¬ @credential_matches Example.decls
                   (server_with (AnyString "p") 1)).
  { intros [[Et _]|[_ (k & a & Ea)]]; discriminate. }
  refine (proj1 (proj2 (proj2 (proj2 (proj2
            (@validate_credential_type Example.decls Example.stunAPI
               (server_with (AnyString "p") 1) _ _ _)))) _) Hm).
  - apply Example_has_turn_url.
  - discriminate.
  - discriminate.
  - constructor; [|constructor]. eexists. vm_compute. reflexivity.
Defined.

(** C9.  Validation of a server whose URLs all parse, none of them to a
    TURN or TURNS URL, succeeds whatever its username, credential and
    credential type are, and [urls] returns the parsed URLs in order; so
    does validation of a server without URLs. *)
Theorem validate_without_turn `{Decls} `{stun.API} :
  (∀ s : ICEServer,
     no_turn_url s →
     validate s = None
     ∧ ∃ us, urls s = Ok us
             ∧ Forall2 (λ raw url, stun.ParseURI raw = Ok url) (URLs s) us)
  ∧ (∀ (username : string) (credential : any)
       (credentialType : ICECredentialType),
       validate {| URLs := []; Username := username;
                   Credential := credential;
                   CredentialType := credentialType |} = None).
Proof.
  split.
  - intros s Hs. unfold validate, urls.
    destruct (urls_loop_no_turn s (URLs s) [] Hs) as (us & -> & Hall).
    split; [reflexivity|]. exists us. split; [reflexivity|exact Hall].
  - reflexivity.
Qed.

Lemma validate_without_turn_witness :
  @validate Example.decls Example.stunAPI stun_server = None.
Proof.
  apply (proj1 (@validate_without_turn Example.decls Example.stunAPI)).
  constructor; [|constructor].
  eexists. split; [vm_compute; reflexivity|reflexivity].
Defined.

(** * Reuse of transceivers by add-track *)

Section ReuseFacts.
Import Registry.
Variable permitsSending : RTPTransceiverDirection → bool.

Local Open Scope nat_scope.

(** A transceiver that holds a Sender is not reused. *)
Lemma reusable_sender (k : RTPCodecType) (t : Transceiver) :
  is_Some (sender t) → reusable permitsSending k t = false.
Proof.
  intros [s Hs]. unfold Registry.reusable. rewrite Hs.
  rewrite (bool_decide_eq_false_2 (Some s = None)) by discriminate.
  apply andb_false_intro1, andb_false_r.
Qed.

Lemma createOrReuse_found (k : RTPCodecType) (d : RTPTransceiverDirection)
    (trk : string) (ts : list Transceiver) (i : nat) (t : Transceiver) :
  list_find (λ t, reusable permitsSending k t = true) ts = Some (i, t) →
  createOrReuse permitsSending k d trk ts
  = (<[i := {| mid := mid t; kind := kind t; direction := d;
               sender := Some (newSender trk) |}]> ts, i).
Proof. intros E. unfold Registry.createOrReuse. rewrite E. reflexivity. Qed.

Lemma createOrReuse_none (k : RTPCodecType) (d : RTPTransceiverDirection)
    (trk : string) (ts : list Transceiver) :
  list_find (λ t, reusable permitsSending k t = true) ts = None →
  createOrReuse permitsSending k d trk ts
  = ((ts ++ [appended k d trk])%list, length ts).
Proof. intros E. unfold Registry.createOrReuse. rewrite E. reflexivity. Qed.

(** The scan of [createOrReuse]: the first reusable transceiver takes the
    track and the registry keeps its length; without one, a transceiver
    is appended. *)
Lemma createOrReuse_scan (k : RTPCodecType) (d : RTPTransceiverDirection)
    (trk : string) (ts : list Transceiver) :
  (∃ i t,
     ts !! i = Some t ∧ reusable permitsSending k t = true
     ∧ (∀ j t', ts !! j = Some t' → j < i →
                reusable permitsSending k t' = false)
     ∧ createOrReuse permitsSending k d trk ts
       = (<[i := {| mid := mid t; kind := kind t; direction := d;
                    sender := Some (newSender trk) |}]> ts, i))
  ∨ (Forall (λ t, reusable permitsSending k t = false) ts
     ∧ createOrReuse permitsSending k d trk ts
       = ((ts ++ [appended k d trk])%list, length ts)).
Proof.
  destruct (list_find (λ t, reusable permitsSending k t = true) ts)
    as [[i t]|] eqn:E.
  - left. exists i, t. rewrite (createOrReuse_found _ _ _ _ _ _ E).
    apply list_find_Some in E as (Hi & Ht & Hmin).
    split; [exact Hi|]. split; [exact Ht|]. split; [|reflexivity].
    intros j t' Hj Hlt. apply not_true_is_false. eapply Hmin; eauto.
  - right. rewrite (createOrReuse_none _ _ _ _ E). split; [|reflexivity].
    apply list_find_None in E. eapply Forall_impl; [exact E|].
    intros t Ht. apply not_true_is_false, Ht.
Qed.

End ReuseFacts.

Section ReuseScenario.
Import Registry.
Variable permitsSending : RTPTransceiverDirection → bool.
Local Open Scope nat_scope.
Local Open Scope list_scope.

(** A transceiver with the given mid, kind, direction and Sender. *)
Local Notation "'slot'" := Build_Transceiver.

(** Adding track [A], then removing its Sender: the track lands in a slot
    [iA] of kind [k] and direction [d]; removing the Sender empties that
    slot and nothing else; no slot before [iA] was reusable. *)
Lemma add_then_remove (k : RTPCodecType) (d : RTPTransceiverDirection)
    (A : string) (ts0 : list Transceiver) :
  (∀ t, t ∈ ts0 → sender t ≠ Some (newSender A)) →
  ∃ ts1 iA m,
    createOrReuse permitsSending k d A ts0 = (ts1, iA)
    ∧ ts1 !! iA = Some (slot m k d (Some (newSender A)))
    ∧ removeTrack (newSender A) ts1
      = Some (<[iA := slot m k d None]> ts1)
    ∧ (∀ j t, j < iA → ts1 !! j = Some t →
              reusable permitsSending k t = false)
    ∧ (∀ j, j ≠ iA → j < length ts0 → ts1 !! j = ts0 !! j)
    ∧ ((iA < length ts0 ∧ length ts1 = length ts0)
       ∨ (iA = length ts0 ∧ length ts1 = S (length ts0))).
Proof.
  intros Huniq.
  assert (Hfind : ∀ ts1 iA m,
    ts1 !! iA = Some (slot m k d (Some (newSender A))) →
    (∀ j t, j < iA → ts1 !! j = Some t → t ∈ ts0) →
    removeTrack (newSender A) ts1 = Some (<[iA := slot m k d None]> ts1)).
  { intros ts1 iA m Hi Hbefore. unfold removeTrack.
    rewrite (proj2 (list_find_Some _ ts1 iA
                      (slot m k d (Some (newSender A))))); [reflexivity|].
    split; [exact Hi|]. split; [reflexivity|].
    intros j y Hj Hlt. apply Huniq. eapply Hbefore; eauto. }
  destruct (createOrReuse_scan permitsSending k d A ts0)
    as [(i & t & Hi & Ht & Hmin & E)|[Hnone E]].
  - pose proof (lookup_lt_Some _ _ _ Hi) as Hlt.
    assert (Hk : kind t = k).
    { unfold reusable in Ht. apply andb_prop in Ht as [Ht _].
      apply andb_prop in Ht as [Ht _].
      apply bool_decide_eq_true in Ht. exact Ht. }
    rewrite Hk in E.
    eexists _, i, (mid t). split; [exact E|].
    assert (Hl : <[i := slot (mid t) k d (Some (newSender A))]> ts0 !! i
                 = Some (slot (mid t) k d (Some (newSender A))))
      by (apply list_lookup_insert_eq, Hlt).
    split; [exact Hl|]. split.
    { apply Hfind; [exact Hl|]. intros j y Hj Hy.
      rewrite list_lookup_insert_ne in Hy by lia.
      eapply list_elem_of_lookup_2, Hy. }
    split.
    { intros j y Hj Hy. rewrite list_lookup_insert_ne in Hy by lia.
      eapply Hmin; eauto. }
    split.
    { intros j Hj _. apply list_lookup_insert_ne. lia. }
    rewrite length_insert. left. split; [lia|reflexivity].
  - eexists _, (length ts0), None. split; [exact E|].
    assert (Hl : (ts0 ++ [appended k d A]) !! length ts0
                 = Some (slot None k d (Some (newSender A))))
      by apply list_lookup_middle, eq_refl.
    split; [exact Hl|]. split.
    { apply Hfind; [exact Hl|]. intros j y Hj Hy.
      rewrite lookup_app_l in Hy by lia.
      eapply list_elem_of_lookup_2, Hy. }
    split.
    { intros j y Hj Hy. rewrite lookup_app_l in Hy by lia.
      eapply (proj1 (Forall_lookup _ _) Hnone), Hy. }
    split.
    { intros j _ Hj. apply lookup_app_l, Hj. }
    rewrite length_app. cbn. right. lia.
Qed.

(** Adding track [B] of the same kind to the emptied slot takes that
    slot. *)
Lemma add_again (k : RTPCodecType) (d : RTPTransceiverDirection)
    (B : string) (ts1 : list Transceiver) (iA : nat) (m : option string)
    (s : option Sender) :
  permitsSending d = true →
  ts1 !! iA = Some (slot m k d s) →
  (∀ j t, j < iA → ts1 !! j = Some t →
          reusable permitsSending k t = false) →
  createOrReuse permitsSending k d B (<[iA := slot m k d None]> ts1)
  = (<[iA := slot m k d (Some (newSender B))]> ts1, iA).
Proof.
  intros Hd Hi Hmin. pose proof (lookup_lt_Some _ _ _ Hi) as Hlt.
  rewrite (createOrReuse_found permitsSending k d B _ iA (slot m k d None)).
  - cbn. rewrite list_insert_insert_eq. reflexivity.
  - apply list_find_Some. split; [apply list_lookup_insert_eq, Hlt|].
    split.
    + unfold reusable. cbn. rewrite Hd, !bool_decide_eq_true_2; auto.
    + intros j y Hj Hj'. rewrite list_lookup_insert_ne in Hj by lia.
      rewrite (Hmin j y Hj' Hj). discriminate.
Qed.

(** A further track of the same kind does not land in the occupied slot,
    and is appended when no other slot is reusable. *)
Lemma add_further (k : RTPCodecType) (d : RTPTransceiverDirection)
    (B C : string) (ts1 : list Transceiver) (iA : nat) (m : option string)
    (s : option Sender) :
  ts1 !! iA = Some (slot m k d s) →
  let ts3 := <[iA := slot m k d (Some (newSender B))]> ts1 in
  snd (createOrReuse permitsSending k d C ts3) ≠ iA
  ∧ ((∀ j t, j ≠ iA → ts1 !! j = Some t →
             reusable permitsSending k t = false) →
     createOrReuse permitsSending k d C ts3
     = ((ts3 ++ [appended k d C])%list, length ts3)).
Proof.
  intros Hi ts3. pose proof (lookup_lt_Some _ _ _ Hi) as Hlt.
  assert (H3 : ts3 !! iA = Some (slot m k d (Some (newSender B))))
    by apply list_lookup_insert_eq, Hlt.
  split.
  - destruct (createOrReuse_scan permitsSending k d C ts3)
      as [(i & t & Ht & Hr & _ & ->)|[_ ->]]; cbn.
    + intros ->. rewrite H3 in Ht. injection Ht as <-.
      rewrite reusable_sender in Hr by (cbn; eauto). discriminate.
    + unfold ts3. rewrite length_insert. lia.
  - intros Hother. apply createOrReuse_none, list_find_None, Forall_lookup.
    intros j t Hj. destruct (decide (j = iA)) as [->|Hne].
    + rewrite H3 in Hj. injection Hj as <-.
      rewrite reusable_sender by (cbn; eauto). discriminate.
    + unfold ts3 in Hj. rewrite list_lookup_insert_ne in Hj by lia.
      rewrite (Hother j t Hne Hj). discriminate.
Qed.

End ReuseScenario.

(** C7.  Add-track scans the registry for the first transceiver of the
    track's kind with an empty Sender slot and a direction that permits
    sending, reuses it, and appends a transceiver only when there is
    none.  So after track [A] is added and its Sender removed, a track
    [B] of the same kind takes the slot [A] had: the registry does not
    grow and every mid, that of the slot included, is as before.  A
    further track [C] of that kind, added while the slot is taken, goes
    to another slot, a newly appended one when no other transceiver is
    reusable.  (A mid is assigned to a slot by negotiation; a new slot is
    what gets a new mid.) *)
Theorem add_track_reuses_slot
    (permitsSending : Registry.RTPTransceiverDirection → bool) :
  (∀ k d trk ts,
     (∃ (i : nat) t,
        ts !! i = Some t ∧ Registry.reusable permitsSending k t = true
        ∧ (∀ (j : nat) t', ts !! j = Some t' → (j < i)%nat →
                   Registry.reusable permitsSending k t' = false)
        ∧ Registry.createOrReuse permitsSending k d trk ts
          = (<[i := {| Registry.mid := Registry.mid t;
                       Registry.kind := Registry.kind t;
                       Registry.direction := d;
                       Registry.sender := Some (Registry.newSender trk) |}]>
               ts, i))
     ∨ (Forall (λ t, Registry.reusable permitsSending k t = false) ts
        ∧ Registry.createOrReuse permitsSending k d trk ts
          = ((ts ++ [appended k d trk])%list, length ts)))
  ∧ (∀ k d (A B C : string) (ts0 : list Registry.Transceiver),
       permitsSending d = true →
       (∀ t, t ∈ ts0 →
             Registry.sender t ≠ Some (Registry.newSender A)) →
       slot_reused permitsSending k d A B C ts0).
Proof.
  split; [apply createOrReuse_scan|].
  intros k d A B C ts0 Hd Huniq.
  destruct (add_then_remove permitsSending k d A ts0 Huniq)
    as (ts1 & iA & m & E1 & Hi & E2 & Hmin & Hsame & Hlen).
  pose proof (lookup_lt_Some _ _ _ Hi) as Hlt.
  exists ts1, iA. eexists. eexists.
  split; [exact E1|]. split; [exact E2|].
  split; [apply (add_again permitsSending k d B ts1 iA m _ Hd Hi Hmin)|].
  split; [apply length_insert|].
  split.
  { rewrite list_fmap_insert. apply list_insert_id.
    rewrite list_lookup_fmap, Hi. reflexivity. }
  split.
  { eexists. split; [apply list_lookup_insert_eq, Hlt|].
    split; reflexivity. }
  destruct (add_further permitsSending k d B C ts1 iA m _ Hi)
    as [Hne Happ].
  split; [exact Hne|].
  intros Hother. apply Happ. intros j t Hj Ht.
  assert (j < length ts1)%nat by (eapply lookup_lt_Some, Ht).
  apply (Hother j t Hj). rewrite <- Hsame; [exact Ht|exact Hj|lia].
Qed.

Lemma add_track_reuses_slot_witness :
  slot_reused not_inactive Registry.RTPCodecTypeVideo
    Registry.RTPTransceiverDirectionSendrecv "foo" "foo" "foo"
    recvonly_video.
Proof.
  apply (proj2 (add_track_reuses_slot not_inactive)).
  - reflexivity.
  - intros t Ht. apply list_elem_of_singleton in Ht. subst t. discriminate.
Defined.

(** [TestAddTransceiverAddTrack_Reuse], replayed: the transceiver count
    after the first add-track, after remove-track and the second
    add-track, and after the third add-track. *)
Example replay_AddTransceiverAddTrack_Reuse :
  let add := Registry.createOrReuse not_inactive Registry.RTPCodecTypeVideo
               Registry.RTPTransceiverDirectionSendrecv "foo" in
  let ts1 := fst (add recvonly_video) in
  length ts1 = 1%nat
  ∧ ∃ ts2, Registry.removeTrack (Registry.newSender "foo") ts1 = Some ts2
           ∧ length (fst (add ts2)) = 1%nat
           ∧ snd (add ts2) = snd (add recvonly_video)
           ∧ length (fst (add (fst (add ts2)))) = 2%nat.
Proof.
  cbv zeta. split; [reflexivity|]. eexists. split; [reflexivity|].
  split; [reflexivity|]. split; reflexivity.
Qed.

(** * Senders started after the answer *)

Section StartFacts.
Import Registry.

Local Open Scope nat_scope.

Lemma startSenders_lookup (offer : list OfferedSection)
    (desc : list MediaSection) (ts : list Transceiver) (i : nat) :
  startSenders offer desc ts !! i
  = startOrStop (offer !! i) desc <$> ts !! i.
Proof.
  apply (list_lookup_imap (λ i t, startOrStop (offer !! i) desc t)).
Qed.

(** A section is active when the remote peer receives. *)
Lemma active_receives (m : MediaSection) :
  active m = true ↔
  section_direction m = RTPTransceiverDirectionSendrecv
  ∨ section_direction m = RTPTransceiverDirectionRecvonly.
Proof.
  unfold active. destruct (section_direction m); cbn;
    (split; [intros E; try discriminate; tauto
            |intros [E|E]; try discriminate; reflexivity]).
Qed.

(** A transceiver without Sender, or with a Sender that the offer did not
    provide, is left as it is. *)
Lemma startOrStop_not_offered (o : option OfferedSection)
    (desc : list MediaSection) (t : Transceiver) :
  (∀ s, sender t = Some s → offers o t s = false) →
  startOrStop o desc t = t.
Proof.
  intros Hno. unfold startOrStop.
  destruct (sender t) as [s|]; [|reflexivity].
  rewrite (Hno s eq_refl). reflexivity.
Qed.

(** The pass changes no mid. *)
Lemma startOrStop_mid (o : option OfferedSection) (desc : list MediaSection)
    (t : Transceiver) :
  mid (startOrStop o desc t) = mid t.
Proof.
  unfold startOrStop. destruct (sender t) as [s|]; [|reflexivity].
  destruct (offers o t s); [|reflexivity].
  destruct (negotiatedSection desc t) as [m|]; [|reflexivity].
  destruct (active m); [destruct (started s)|]; reflexivity.
Qed.

(** A Sender that the offer provided keeps its slot and its track, and is
    started when the remote peer receives on its section. *)
Lemma startOrStop_offered (sec : OfferedSection) (desc : list MediaSection)
    (t : Transceiver) (s : Sender) :
  sender t = Some s → mid t = Some (offered_mid sec) →
  offered_track sec = Some (track s) →
  ∃ s', sender (startOrStop (Some sec) desc t) = Some s'
        ∧ track s' = track s
        ∧ (started s' = true ↔
           started s = true ∨ remote_receives desc (offered_mid sec)).
Proof.
  intros Hs Hm Ht. unfold startOrStop, offers, negotiatedSection.
  rewrite Hs, Hm, Ht, !bool_decide_eq_true_2 by reflexivity.
  cbn [andb]. unfold remote_receives.
  destruct (list_find (λ x, section_mid x = Some (offered_mid sec)) desc)
    as [[j sct]|] eqn:E; cbn [fmap option_fmap option_map snd].
  - destruct (active sct) eqn:Ea.
    + destruct (started s) eqn:Est.
      * exists s. rewrite Est. tauto.
      * eexists. split; [reflexivity|].
        split; [reflexivity|]. cbn. split; [intros _|reflexivity].
        right. exists j, sct. split; [reflexivity|].
        apply active_receives, Ea.
    + eexists. split; [reflexivity|].
      split; [reflexivity|]. cbn. split; [tauto|].
      intros [Est|(j' & sct' & [= _ <-] & Hd)]; [exact Est|].
      apply active_receives in Hd. congruence.
  - exists s. split; [exact Hs|].
    split; [reflexivity|]. split; [tauto|].
    intros [Est|(j' & sct' & [=] & _)]. exact Est.
Qed.

Variable freshMid : nat → string.

Lemma assignMid_sender (i : nat) (t : Transceiver) :
  sender (assignMid freshMid i t) = sender t.
Proof. unfold assignMid. destruct (mid t); reflexivity. Qed.

Lemma assignMid_mid (i : nat) (t : Transceiver) :
  mid (assignMid freshMid i t) = Some (default (freshMid i) (mid t)).
Proof.
  unfold assignMid. destruct (mid t) eqn:E; [exact E|reflexivity].
Qed.

Variable permitsSending : RTPTransceiverDirection → bool.

(** Add-track after the offer: the track goes to a position that held no
    Sender when the offer was made, and every other position is as the
    offer left it. *)
Lemma createOrReuse_after_offer (k : RTPCodecType)
    (d : RTPTransceiverDirection) (trk : string) (ts : list Transceiver) :
  ∃ ts1 (i2 : nat) t2,
    createOrReuse permitsSending k d trk (imap (assignMid freshMid) ts)
    = (ts1, i2)
    ∧ ts1 !! i2 = Some t2
    ∧ sender t2 = Some (newSender trk)
    ∧ (∀ j, j ≠ i2 → ts1 !! j = imap (assignMid freshMid) ts !! j)
    ∧ (∀ t, ts !! i2 = Some t → sender t = None).
Proof.
  destruct (createOrReuse_scan permitsSending k d trk
              (imap (assignMid freshMid) ts))
    as [(i & t0 & Hi & Hre & _ & E)|[_ E]]; rewrite E.
  - eexists _, i, _. split; [reflexivity|].
    split; [apply list_lookup_insert_eq; eapply lookup_lt_Some, Hi|].
    split; [reflexivity|].
    split; [intros j Hj; apply list_lookup_insert_ne; congruence|].
    intros t Ht. rewrite list_lookup_imap, Ht in Hi.
    injection Hi as <-. rewrite <- (assignMid_sender i t).
    unfold reusable in Hre.
    apply andb_true_iff in Hre as [[_ Hnone]%andb_true_iff _].
    apply bool_decide_eq_true in Hnone. exact Hnone.
  - eexists _, _, (appended k d trk). split; [reflexivity|].
    split; [apply list_lookup_middle; reflexivity|].
    split; [reflexivity|].
    rewrite length_imap. split.
    + intros j Hj.
      destruct (decide (j < length ts)) as [Hlt|Hge].
      * apply lookup_app_l. rewrite length_imap. exact Hlt.
      * rewrite !lookup_ge_None_2; [reflexivity|rewrite length_imap; lia|].
        rewrite length_app, length_imap. cbn. lia.
    + intros t Ht. apply lookup_lt_Some in Ht. lia.
Qed.

End StartFacts.

(** C8.  An offer is made for a registry, a track is added, and the answer
    is applied.  The Sender of the added track is in the registry and is
    as add-track made it, not started, whether its transceiver was reused
    or appended.  Every Sender that the registry held when the offer was
    made keeps its position and its track, its transceiver has the mid of
    the offer, and after the answer it is started exactly when it was
    started before or the answer has a section with that mid on which the
    remote peer receives (direction sendrecv or recvonly, so that the local
    direction includes send).  No other Sender is started. *)
Theorem start_only_negotiated_senders
    (permitsSending : Registry.RTPTransceiverDirection → bool)
    (freshMid : nat → string) (ts : list Registry.Transceiver)
    (k : Registry.RTPCodecType) (d : Registry.RTPTransceiverDirection)
    (track2 : string) (answer : list Registry.MediaSection) :
  ∃ ts0 offer ts1 (i2 : nat),
    Registry.createOffer freshMid ts = (ts0, offer)
    ∧ Registry.createOrReuse permitsSending k d track2 ts0 = (ts1, i2)
    ∧ length (Registry.startSenders offer answer ts1) = length ts1
    ∧ (∃ t2, Registry.startSenders offer answer ts1 !! i2 = Some t2
             ∧ Registry.sender t2 = Some (Registry.newSender track2)
             ∧ Registry.hasSent t2 = false)
    ∧ (∀ (i : nat) t s,
         ts !! i = Some t → Registry.sender t = Some s →
         ∃ t' s' m,
           Registry.startSenders offer answer ts1 !! i = Some t'
           ∧ m = default (freshMid i) (Registry.mid t)
           ∧ Registry.mid t' = Some m
           ∧ Registry.sender t' = Some s'
           ∧ Registry.track s' = Registry.track s
           ∧ (Registry.started s' = true ↔
              Registry.started s = true ∨ remote_receives answer m))
    ∧ (∀ (i : nat) t',
         Registry.startSenders offer answer ts1 !! i = Some t' →
         Registry.hasSent t' = true →
         i ≠ i2 ∧ ∃ t, ts !! i = Some t ∧ is_Some (Registry.sender t)).
Proof.
  destruct (createOrReuse_after_offer freshMid permitsSending k d track2 ts)
    as (ts1 & i2 & t2 & E & Hi2 & Hs2 & Hsame & Hfree).
  exists (imap (Registry.assignMid freshMid) ts),
    (imap (Registry.offeredSection freshMid) ts), ts1, i2.
  split; [reflexivity|]. split; [exact E|].
  split; [apply length_imap|].
  assert (Hlate : Registry.startOrStop
                    (imap (Registry.offeredSection freshMid) ts !! i2)
                    answer t2 = t2).
  { apply startOrStop_not_offered. intros s Hs.
    rewrite list_lookup_imap.
    destruct (ts !! i2) as [t|] eqn:Et; [|reflexivity].
    cbn. rewrite (Hfree t eq_refl). cbn.
    rewrite (bool_decide_eq_false_2 (None = Some _)) by discriminate.
    apply andb_false_r. }
  assert (Hoffered : ∀ (i : nat) t s,
            ts !! i = Some t → Registry.sender t = Some s →
            i ≠ i2
            ∧ ts1 !! i = Some (Registry.assignMid freshMid i t)).
  { intros i t s Hi Hs.
    assert (Hne : i ≠ i2).
    { intros ->. rewrite (Hfree t Hi) in Hs. discriminate. }
    split; [exact Hne|].
    rewrite (Hsame i Hne), list_lookup_imap, Hi. reflexivity. }
  split; [|split].
  - exists t2. rewrite startSenders_lookup, Hi2. cbn. rewrite Hlate.
    split; [reflexivity|]. split; [exact Hs2|].
    unfold Registry.hasSent. rewrite Hs2. reflexivity.
  - intros i t s Hi Hs.
    destruct (Hoffered i t s Hi Hs) as [Hne Hi1].
    rewrite startSenders_lookup, Hi1, list_lookup_imap, Hi. cbn.
    destruct (startOrStop_offered (Registry.offeredSection freshMid i t)
                answer (Registry.assignMid freshMid i t) s)
      as (s' & Hs' & Ht' & Hst).
    + rewrite assignMid_sender. exact Hs.
    + apply assignMid_mid.
    + cbn. rewrite Hs. reflexivity.
    + eexists _, s', _. split; [reflexivity|]. split; [reflexivity|].
      split; [rewrite startOrStop_mid; apply assignMid_mid|].
      split; [exact Hs'|]. split; [exact Ht'|exact Hst].
  - intros i t' Hi' Hsent. rewrite startSenders_lookup in Hi'.
    destruct (decide (i = i2)) as [->|Hne].
    { rewrite Hi2 in Hi'. cbn in Hi'. rewrite Hlate in Hi'.
      injection Hi' as <-. unfold Registry.hasSent in Hsent.
      rewrite Hs2 in Hsent. discriminate. }
    split; [exact Hne|].
    rewrite (Hsame i Hne), !list_lookup_imap in Hi'.
    destruct (ts !! i) as [t|] eqn:Et; [|cbn in Hi'; discriminate].
    exists t. split; [reflexivity|].
    destruct (Registry.sender t) as [s|] eqn:Es; [eexists; reflexivity|].
    cbn in Hi'. rewrite startOrStop_not_offered in Hi'.
    + injection Hi' as <-. unfold Registry.hasSent in Hsent.
      rewrite assignMid_sender, Es in Hsent. discriminate.
    + intros s. rewrite assignMid_sender, Es. discriminate.
Qed.

Lemma start_only_negotiated_senders_witness :
  ∃ ts0 offer ts1 (i2 : nat),
    Registry.createOffer pretty first_track = (ts0, offer)
    ∧ Registry.createOrReuse not_inactive Registry.RTPCodecTypeVideo
        Registry.RTPTransceiverDirectionSendrecv "pion2" ts0 = (ts1, i2)
    ∧ length (Registry.startSenders offer answer_recvonly ts1) = length ts1
    ∧ (∃ t2, Registry.startSenders offer answer_recvonly ts1 !! i2 = Some t2
             ∧ Registry.sender t2 = Some (Registry.newSender "pion2")
             ∧ Registry.hasSent t2 = false)
    ∧ (∀ (i : nat) t s,
         first_track !! i = Some t → Registry.sender t = Some s →
         ∃ t' s' m,
           Registry.startSenders offer answer_recvonly ts1 !! i = Some t'
           ∧ m = default (pretty i) (Registry.mid t)
           ∧ Registry.mid t' = Some m
           ∧ Registry.sender t' = Some s'
           ∧ Registry.track s' = Registry.track s
           ∧ (Registry.started s' = true ↔
              Registry.started s = true
              ∨ remote_receives answer_recvonly m))
    ∧ (∀ (i : nat) t',
         Registry.startSenders offer answer_recvonly ts1 !! i = Some t' →
         Registry.hasSent t' = true →
         i ≠ i2 ∧ ∃ t, first_track !! i = Some t
                       ∧ is_Some (Registry.sender t)).
Proof.
  exact (start_only_negotiated_senders not_inactive pretty first_track
           Registry.RTPCodecTypeVideo
           Registry.RTPTransceiverDirectionSendrecv "pion2"
           answer_recvonly).
Defined.

(** [TestPeerConnection_Start_Only_Negotiated_Senders], replayed: track
    "pion1" is added, the offer is made, track "pion2" is added, and the
    answer of a peer without track is applied.  The Sender of "pion1" has
    sent and the Sender of "pion2" has not. *)
Example replay_Start_Only_Negotiated_Senders :
  let (ts0, offer) := Registry.createOffer pretty first_track in
  let ts1 := fst (Registry.createOrReuse not_inactive
                    Registry.RTPCodecTypeVideo
                    Registry.RTPTransceiverDirectionSendrecv "pion2" ts0) in
  Registry.mid <$> ts0 = [Some "0"]
  ∧ Registry.hasSent <$> Registry.startSenders offer answer_recvonly ts1
    = [true; false].
Proof. vm_compute. split; reflexivity. Qed.

(** The same with a second transceiver that is free when the offer is
    made: track "pion2" takes it, with the mid "1" that the offer gave
    it, and is not started by an answer whose section for that mid is
    active. *)
Example late_sender_on_reused_slot :
  let (ts0, offer) := Registry.createOffer pretty with_free_slot in
  let add := Registry.createOrReuse not_inactive Registry.RTPCodecTypeVideo
               Registry.RTPTransceiverDirectionSendrecv "pion2" ts0 in
  snd add = 1%nat
  ∧ Registry.mid <$> fst add = [Some "0"; Some "1"]
  ∧ Registry.hasSent <$> Registry.startSenders offer answer_both (fst add)
    = [true; false].
Proof. vm_compute. repeat split; reflexivity. Qed.

(** * More on [urls]: which servers pass, what is returned, which error *)

Section UrlsFacts.
Context `{Decls} `{stun.API}.

Lemma urls_loop_cons (s : ICEServer) (raw : string) (rest : list string)
    (acc : list stun.URI) :
  urls_loop s (raw :: rest) acc
  = let? u := checkURL s raw in urls_loop s rest (acc ++ [u])%list.
Proof.
  cbn [urls_loop]. unfold checkURL.
  destruct (stun.ParseURI raw) as [url|err]; [|reflexivity].
  destruct (is_turn (stun.Scheme url)); reflexivity.
Qed.

(** [urls] succeeds exactly when every URL passes the loop body, and then
    returns the results in order. *)
Lemma urls_loop_Ok_iff (s : ICEServer) (rest : list string)
    (acc res : list stun.URI) :
  urls_loop s rest acc = Ok res ↔
  ∃ us, res = (acc ++ us)%list
        ∧ Forall2 (λ raw u, checkURL s raw = Ok u) rest us.
Proof.
  revert acc. induction rest as [|raw rest IH]; intros acc.
  - cbn. split.
    + intros [= <-]. exists []. rewrite app_nil_r. split; constructor.
    + intros (us & -> & Hus). inversion Hus. rewrite app_nil_r. reflexivity.
  - rewrite urls_loop_cons. destruct (checkURL s raw) as [u|err] eqn:E;
      cbn [bind].
    + rewrite IH. split.
      * intros (us & -> & Hus). exists (u :: us).
        rewrite <- app_assoc. split; [reflexivity|]. constructor; auto.
      * intros (us & -> & Hus). inversion Hus as [|? u' ? us' Hu Hus' ]; subst.
        rewrite E in Hu. injection Hu as <-.
        exists us'. rewrite <- app_assoc. split; [reflexivity|exact Hus'].
    + split; [discriminate|].
      intros (us & _ & Hus). inversion Hus; subst. congruence.
Qed.

(** The first URL that does not pass decides the error. *)
Lemma urls_loop_first_Err (s : ICEServer) (pre post : list string)
    (raw : string) (acc : list stun.URI) (err : error) :
  Forall (λ r, ∃ u, checkURL s r = Ok u) pre →
  checkURL s raw = Err err →
  urls_loop s (pre ++ raw :: post) acc = Err err.
Proof.
  intros Hpre Hraw. revert acc.
  induction Hpre as [|r pre [u Hu] _ IH]; intros acc.
  - cbn [app]. rewrite urls_loop_cons, Hraw. reflexivity.
  - rewrite <- app_comm_cons, urls_loop_cons, Hu. cbn [bind]. apply IH.
Qed.

Lemma turn_credentials_accepted (s : ICEServer) (url : stun.URI) :
  (credentials_accepted s ∧ ∃ u, turn_credentials s url = Ok u)
  ∨ (¬ credentials_accepted s
     ∧ turn_credentials s url
       = Err (InvalidAccessError (Sentinel (rejection s)))).
Proof.
  unfold turn_credentials, credentials_accepted, rejection.
  destruct (String.eqb_spec (Username s) "") as [Eu|Nu].
  { right. cbn. split; [tauto|reflexivity]. }
  destruct (Credential s) as [|password|oauth|o|b|n] eqn:Ec;
    cbn [any_is_nil orb];
    destruct (Z.eqb_spec (CredentialType s) ICECredentialTypePassword)
      as [Ep|Np];
    try destruct (Z.eqb_spec (CredentialType s) ICECredentialTypeOauth)
      as [Eo|No];
    first
      [ left; split; [|eauto];
        split; [exact Nu|]; split; [discriminate|]; eauto 6
      | right; split; [|reflexivity];
        intros (_ & Hn & [[Hp1 [p Hp]]|(Hn1 & Ho & [c Hc])]);
        congruence ].
Qed.

Lemma turn_credentials_fields (s : ICEServer) (url u : stun.URI) :
  turn_credentials s url = Ok u →
  stun.Scheme u = stun.Scheme url ∧ stun.Host u = stun.Host url
  ∧ stun.Port u = stun.Port url ∧ stun.Proto u = stun.Proto url
  ∧ stun.Username u = Username s
  ∧ (CredentialType s = ICECredentialTypePassword →
     Credential s = AnyString (stun.Password u))
  ∧ (CredentialType s ≠ ICECredentialTypePassword →
     stun.Password u = stun.Password url).
Proof.
  unfold turn_credentials.
  destruct (_ || _); [discriminate|].
  destruct (Z.eqb_spec (CredentialType s) ICECredentialTypePassword)
    as [Ep|Np].
  - destruct (Credential s); try discriminate. intros [= <-]. cbn.
    repeat split; auto. intros Hn. contradiction.
  - destruct (_ =? _); [|discriminate].
    destruct (Credential s); try discriminate. intros [= <-]. cbn.
    repeat split; auto. intros Hp. contradiction.
Qed.

Lemma checkURL_Ok (s : ICEServer) (raw : string) (u : stun.URI) :
  checkURL s raw = Ok u ↔
  ∃ url, stun.ParseURI raw = Ok url
         ∧ (if is_turn (stun.Scheme url)
            then turn_credentials s url = Ok u else u = url).
Proof.
  unfold checkURL. destruct (stun.ParseURI raw) as [url|err].
  - split.
    + intros E. exists url. split; [reflexivity|].
      destruct (is_turn (stun.Scheme url)); congruence.
    + intros (url' & [= <-] & E).
      destruct (is_turn (stun.Scheme url)); congruence.
  - split; [discriminate|]. intros (url & Hp & _). discriminate.
Qed.

(** A URL passes the loop body exactly when it parses and, if it is a TURN
    or TURNS URL, the credentials are accepted. *)
Lemma checkURL_passes (s : ICEServer) (raw : string) :
  (∃ u, checkURL s raw = Ok u) ↔
  ∃ url, stun.ParseURI raw = Ok url
         ∧ (is_turn (stun.Scheme url) = true → credentials_accepted s).
Proof.
  split.
  - intros (u & (url & Hp & Hu)%checkURL_Ok). exists url.
    split; [exact Hp|]. intros Ht. rewrite Ht in Hu.
    destruct (turn_credentials_accepted s url) as [[Ha _]|[_ He]];
      [exact Ha|congruence].
  - intros (url & Hp & Ha).
    destruct (is_turn (stun.Scheme url)) eqn:Ht.
    + destruct (turn_credentials_accepted s url) as [[_ [u Hu]]|[Hn _]];
        [|tauto].
      exists u. apply checkURL_Ok. exists url. rewrite Ht. auto.
    + exists url. apply checkURL_Ok. exists url. rewrite Ht. auto.
Qed.

Lemma checkURL_returned (s : ICEServer) (raw : string) (u : stun.URI) :
  checkURL s raw = Ok u → returned_for s raw u.
Proof.
  intros (url & Hp & Hu)%checkURL_Ok. exists url. split; [exact Hp|].
  destruct (is_turn (stun.Scheme url)) eqn:Ht.
  - destruct (turn_credentials_fields s url u Hu)
      as (Hs & Hh & Hpo & Hpr & Hun & Hpw & Hkeep).
    repeat split; auto. discriminate.
  - subst u. repeat split; auto; discriminate.
Qed.

End UrlsFacts.

Lemma validate_passes_iff `{Decls} `{stun.API} (s : ICEServer) :
  ((∃ us, urls s = Ok us) ↔
   all_parse s ∧ (has_turn_url s → credentials_accepted s))
  ∧ (validate s = None ↔
     all_parse s ∧ (has_turn_url s → credentials_accepted s)).
Proof.
  assert (Hiff : (∃ us, urls s = Ok us) ↔
                 all_parse s ∧ (has_turn_url s → credentials_accepted s)).
  { unfold urls, all_parse, has_turn_url. split.
    - intros (us & (us' & _ & Hall)%urls_loop_Ok_iff). split.
      + apply Forall_forall. intros raw Hin.
        apply list_elem_of_lookup in Hin as [i Hi].
        destruct (Forall2_lookup_l _ _ _ _ _ Hall Hi) as (u & _ & Hu).
        apply checkURL_Ok in Hu as (url & Hp & _). eauto.
      + intros (raw & url & Hin & Hp & Ht).
        apply list_elem_of_lookup in Hin as [i Hi].
        destruct (Forall2_lookup_l _ _ _ _ _ Hall Hi) as (u & _ & Hu).
        assert (Hpass : ∃ u, checkURL s raw = Ok u) by eauto.
        apply checkURL_passes in Hpass as (url' & Hp' & Ha).
        rewrite Hp in Hp'. injection Hp' as <-. auto.
    - intros [Hall Hacc].
      assert (Hpass : Forall (λ raw, ∃ u, checkURL s raw = Ok u) (URLs s)).
      { apply Forall_forall. intros raw Hin.
        pose proof (proj1 (Forall_forall _ _) Hall raw Hin) as [url Hp].
        apply checkURL_passes. exists url. split; [exact Hp|].
        intros Ht. apply Hacc. exists raw, url. auto. }
      clear Hall Hacc.
      assert (Hex : ∃ us, Forall2 (λ raw u, checkURL s raw = Ok u)
                            (URLs s) us).
      { induction Hpass as [|raw rest [u Hu] _ [us Hus]].
        - exists []. constructor.
        - exists (u :: us). constructor; assumption. }
      destruct Hex as [us Hus]. exists us.
      apply urls_loop_Ok_iff. exists us. split; [reflexivity|exact Hus]. }
  split; [exact Hiff|].
  rewrite <- Hiff. unfold validate.
  destruct (urls s) as [us|err]; split; eauto; try discriminate.
  intros [us Hus]. discriminate.
Qed.

(** X1.  [urls] succeeds, and [validate] returns no error, exactly when
    every URL of the server parses and, if one of them is a TURN or TURNS
    URL, the server has a username, a credential, and a credential of the
    dynamic type that the first matching case of the credential type asks
    for. *)
Theorem urls_succeeds_iff `{Decls} `{stun.API} (s : ICEServer) :
  ((∃ us, urls s = Ok us) ↔
   all_parse s ∧ (has_turn_url s → credentials_accepted s))
  ∧ (validate s = None ↔
     all_parse s ∧ (has_turn_url s → credentials_accepted s)).
Proof. apply validate_passes_iff. Qed.

(** X2.  When [urls] succeeds it returns one URI per URL of the server, in
    order: the URL as parsed when it is not a TURN or TURNS URL (no
    credential is written into a STUN URL); for a TURN or TURNS URL the
    parsed scheme, host, port and protocol, the server's username, and as
    password the server's string credential when the credential type is
    password, the parsed password otherwise. *)
Theorem urls_returns `{Decls} `{stun.API} (s : ICEServer)
    (us : list stun.URI) :
  urls s = Ok us →
  length us = length (URLs s)
  ∧ Forall2 (returned_for s) (URLs s) us.
Proof.
  unfold urls. intros (us' & -> & Hall)%urls_loop_Ok_iff. cbn [app].
  split; [symmetry; eapply Forall2_length, Hall|].
  eapply Forall2_impl; [exact Hall|].
  intros raw u Hu. apply checkURL_returned, Hu.
Qed.

Lemma urls_returns_witness :
  ∃ us,
    @urls Example.decls Example.stunAPI stun_turn_server = Ok us
    ∧ length us = 2%nat
    ∧ Forall2 (@returned_for Example.decls Example.stunAPI
                 stun_turn_server)
        (URLs stun_turn_server) us.
Proof.
  eexists. split; [vm_compute; reflexivity|].
  apply (@urls_returns Example.decls Example.stunAPI stun_turn_server).
  vm_compute. reflexivity.
Defined.

(** X3.  The first URL that does not pass decides the error of [urls] and
    [validate], whatever follows it: when all URLs before it parse and pass,
    a URL that does not parse yields an [InvalidAccessError] around the
    parser's error, and a TURN or TURNS URL without accepted credentials
    yields one around [ErrNoTurnCredentials] when the username is empty or
    the credential [nil], around [ErrTurnCredentials] otherwise. *)
Theorem urls_first_error `{Decls} `{stun.API} (s : ICEServer)
    (pre post : list string) (raw : string) :
  URLs s = (pre ++ raw :: post)%list →
  Forall (λ r, ∃ url, stun.ParseURI r = Ok url
                      ∧ (is_turn (stun.Scheme url) = true →
                         credentials_accepted s)) pre →
  (∀ err, stun.ParseURI raw = Err err →
          urls s = Err (InvalidAccessError err)
          ∧ validate s = Some (InvalidAccessError err))
  ∧ (∀ url, stun.ParseURI raw = Ok url →
            is_turn (stun.Scheme url) = true →
            ¬ credentials_accepted s →
            urls s = Err (InvalidAccessError (Sentinel (rejection s)))
            ∧ validate s
              = Some (InvalidAccessError (Sentinel (rejection s)))).
Proof.
  intros HU Hpre.
  assert (Hpre' : Forall (λ r, ∃ u, checkURL s r = Ok u) pre).
  { eapply Forall_impl; [exact Hpre|]. intros r Hr.
    apply checkURL_passes, Hr. }
  assert (Hfirst : ∀ err, checkURL s raw = Err err →
                          urls s = Err err ∧ validate s = Some err).
  { intros err He. unfold validate, urls. rewrite HU.
    rewrite (urls_loop_first_Err s pre post raw [] err Hpre' He). auto. }
  split.
  - intros err Hp. apply Hfirst. unfold checkURL. rewrite Hp. reflexivity.
  - intros url Hp Ht Hn. apply Hfirst. unfold checkURL. rewrite Hp, Ht.
    destruct (turn_credentials_accepted s url) as [[Ha _]|[_ He]];
      [contradiction|exact He].
Qed.

Lemma urls_first_error_witness :
  @urls Example.decls Example.stunAPI broken_server
  = Err (InvalidAccessError (Foreign "invalid URL"))
  ∧ @validate Example.decls Example.stunAPI broken_server
    = Some (InvalidAccessError (Foreign "invalid URL")).
Proof.
  refine (proj1 (@urls_first_error Example.decls Example.stunAPI
                   broken_server ["stun:a.example"] ["turn:example.com"]
                   "example.com" eq_refl _) _ eq_refl).
  constructor; [|constructor]. eexists.
  split; [vm_compute; reflexivity|]. discriminate.
Defined.

(** X4.  Whether a server passes validation does not depend on the order
    of its URLs (the order decides only which error is reported). *)
Theorem validate_permutation `{Decls} `{stun.API} (s : ICEServer)
    (l : list string) :
  URLs s ≡ₚ l →
  (validate s = None ↔ validate (with_URLs s l) = None).
Proof.
  intros Hp.
  rewrite (proj2 (validate_passes_iff s)),
    (proj2 (validate_passes_iff (with_URLs s l))).
  unfold all_parse, has_turn_url, credentials_accepted. cbn.
  rewrite Hp.
  assert (Hin : ∀ raw, raw ∈ URLs s ↔ raw ∈ l)
    by (intros raw; rewrite Hp; tauto).
  split; intros [Hall Hacc]; (split; [exact Hall|]);
    intros (raw & url & Hr & Hrest); apply Hacc; exists raw, url;
    (split; [apply Hin, Hr|exact Hrest]).
Qed.

Lemma validate_permutation_witness :
  @validate Example.decls Example.stunAPI stun_turn_server = None ↔
  @validate Example.decls Example.stunAPI
    (with_URLs stun_turn_server ["turn:example.com"; "stun:a.example"])
  = None.
Proof.
  apply (@validate_permutation Example.decls Example.stunAPI).
  apply Permutation_swap.
Defined.

(** * More on candidate types and candidates *)

(** X5.  [String] undoes [NewICECandidateType]: every string that
    [NewICECandidateType] accepts is the [String] of the type it
    returns. *)
Theorem String_NewICECandidateType `{Decls} (raw : string) :
  snd (NewICECandidateType raw) = None →
  ICECandidateType_String (fst (NewICECandidateType raw)) = raw.
Proof.
  destruct (NewICECandidateType_cases raw)
    as [[ -> E] | [[ -> E] | [[ -> E] | [[ -> E] | [_ E]]]]]; rewrite E;
    cbn [fst snd]; intros Hnil; first [discriminate|reflexivity].
Qed.

Lemma String_NewICECandidateType_witness :
  @ICECandidateType_String Example.decls
    (fst (NewICECandidateType "prflx")) = "prflx".
Proof.
  apply (@String_NewICECandidateType Example.decls "prflx").
  reflexivity.
Defined.

(** X6.  [MarshalText] never fails, but a type that is none of the four
    known ones does not survive it: it is marshalled as the text of
    [ErrUnknownType], which [UnmarshalText] rejects, storing
    [ICECandidateTypeUnknown] (this as long as that text is not itself the
    name of a candidate type). *)
Theorem MarshalText_unknown `{Decls} (t t0 : ICECandidateType) :
  t ∉ known_types → ErrUnknownType_Error ∉ known_kinds →
  MarshalText t
  = (String.list_byte_of_string ErrUnknownType_Error, None)
  ∧ UnmarshalText t0 (fst (MarshalText t))
    = (ICECandidateTypeUnknown,
       Some (Errorf errICECandidateTypeUnknown ErrUnknownType_Error)).
Proof.
  intros Ht Hk.
  assert (Es : ICECandidateType_String t = ErrUnknownType_Error).
  { rewrite known_types_elem in Ht. unfold ICECandidateType_String.
    unfold ICECandidateTypeHost, ICECandidateTypeSrflx,
      ICECandidateTypePrflx, ICECandidateTypeRelay.
    destruct (Z.eqb_spec t 1); [tauto|].
    destruct (Z.eqb_spec t 2); [tauto|].
    destruct (Z.eqb_spec t 3); [tauto|].
    destruct (Z.eqb_spec t 4); [tauto|].
    reflexivity. }
  unfold MarshalText, UnmarshalText. rewrite Es. split; [reflexivity|].
  cbn [fst]. rewrite String.string_of_list_byte_of_string.
  destruct (NewICECandidateType_cases ErrUnknownType_Error)
    as [[E _] | [[E _] | [[E _] | [[E _] | [_ E]]]]]; [..|exact E];
    exfalso; apply Hk, known_kinds_elem; tauto.
Qed.

Lemma MarshalText_unknown_witness :
  @UnmarshalText 3 (fst (@MarshalText Example.decls 7))
  = (ICECandidateTypeUnknown,
     Some (Errorf errICECandidateTypeUnknown "unknown type")).
Proof.
  apply (@MarshalText_unknown Example.decls 7 3).
  - rewrite known_types_elem. lia.
  - rewrite known_kinds_elem. cbn.
    intros [E|[E|[E|E]]]; discriminate.
Defined.

Section FromICEFacts.
Context `{Decls} `{ice.API}.

(** The three ways [newICECandidateFromICE] ends. *)
Lemma newICECandidateFromICE_cases (candidate : ice.Candidate)
    (sdpMid : string) (sdpMLineIndex : Z) :
  (¬ ice_known (ice.Type_ candidate)
   ∧ newICECandidateFromICE candidate sdpMid sdpMLineIndex
     = Err (Errorf errICECandidateTypeUnknown
              (ice.CandidateType_String (ice.Type_ candidate))))
  ∨ (ice_known (ice.Type_ candidate)
     ∧ ∃ err, NewICEProtocol (ice.NetworkShort candidate) = Err err
              ∧ newICECandidateFromICE candidate sdpMid sdpMLineIndex
                = Err err)
  ∨ (ice_known (ice.Type_ candidate)
     ∧ ∃ protocol c,
         NewICEProtocol (ice.NetworkShort candidate) = Ok protocol
         ∧ newICECandidateFromICE candidate sdpMid sdpMLineIndex = Ok c
         ∧ Protocol c = protocol
         ∧ convertTypeFromICE (ice.Type_ candidate) = (Typ c, None)
         ∧ Typ c ∈ known_types
         ∧ statsID c = ice.ID candidate
         ∧ Foundation c = ice.Foundation candidate
         ∧ Priority c = ice.Priority candidate
         ∧ Address c = ice.CAddress candidate
         ∧ Port c = ice.CPort candidate `mod` 65536
         ∧ Component c = ice.Component candidate
         ∧ TCPType c = ice.TCPType_String (ice.CTCPType candidate)
         ∧ SDPMid c = sdpMid ∧ SDPMLineIndex c = sdpMLineIndex
         ∧ 0 ≤ RelatedPort c < 65536).
Proof.
  unfold newICECandidateFromICE.
  destruct (convert_cases (ice.Type_ candidate))
    as [(Hk & r & Hr & _ & Ec)|(Hn & _ & Ec)]; rewrite Ec.
  - destruct (NewICEProtocol (ice.NetworkShort candidate))
      as [protocol|err]; cbn [bind].
    + right. right. split; [exact Hk|]. exists protocol.
      destruct (ice.RelatedAddress candidate); eexists;
        (split; [reflexivity|]); (split; [reflexivity|]); cbn;
        unfold uint16; repeat split; auto;
        first [apply Z.mod_pos_bound|idtac]; lia.
    + right. left. split; [exact Hk|]. exists err. auto.
  - left. auto.
Qed.

Lemma newICECandidatesFromICE_loop_Ok_iff (ics : list ice.Candidate)
    (sdpMid : string) (sdpMLineIndex : Z) (acc res : list ICECandidate) :
  newICECandidatesFromICE_loop ics sdpMid sdpMLineIndex acc = Ok res ↔
  ∃ cs, res = (acc ++ cs)%list
        ∧ Forall2 (λ i c, newICECandidateFromICE i sdpMid sdpMLineIndex
                          = Ok c) ics cs.
Proof.
  revert acc. induction ics as [|i ics IH]; intros acc; cbn.
  - split.
    + intros [= <-]. exists []. rewrite app_nil_r. split; constructor.
    + intros (cs & -> & Hcs). inversion Hcs. rewrite app_nil_r.
      reflexivity.
  - destruct (newICECandidateFromICE i sdpMid sdpMLineIndex)
      as [c|err] eqn:E; cbn [bind].
    + rewrite IH. split.
      * intros (cs & -> & Hcs). exists (c :: cs).
        rewrite <- app_assoc. split; [reflexivity|]. constructor; auto.
      * intros (cs & -> & Hcs).
        inversion Hcs as [|? c' ? cs' Hc Hcs']; subst.
        assert (c' = c) as -> by congruence.
        exists cs'. rewrite <- app_assoc.
        split; [reflexivity|exact Hcs'].
    + split; [discriminate|].
      intros (cs & _ & Hcs). inversion Hcs; subst. congruence.
Qed.

Lemma newICECandidatesFromICE_loop_first_Err (pre post : list ice.Candidate)
    (bad : ice.Candidate) (sdpMid : string) (sdpMLineIndex : Z)
    (acc : list ICECandidate) (err : error) :
  Forall (λ i, ∃ c, newICECandidateFromICE i sdpMid sdpMLineIndex = Ok c)
    pre →
  newICECandidateFromICE bad sdpMid sdpMLineIndex = Err err →
  newICECandidatesFromICE_loop (pre ++ bad :: post) sdpMid sdpMLineIndex acc
  = Err err.
Proof.
  intros Hpre Hbad. revert acc.
  induction Hpre as [|i pre [c Hc] _ IH]; intros acc; cbn.
  - rewrite Hbad. reflexivity.
  - rewrite Hc. cbn [bind]. apply IH.
Qed.

End FromICEFacts.

(** X7.  [newICECandidateFromICE] succeeds exactly when the type of the
    ICE candidate is one of the four of the [switch] and [NewICEProtocol]
    accepts the short name of its network.  The type is checked first: a
    candidate of another type fails with an error around
    [errICECandidateTypeUnknown] whatever its network is, and a candidate
    of a known type fails with the error of [NewICEProtocol]. *)
Theorem newICECandidateFromICE_succeeds_iff `{Decls} `{ice.API}
    (candidate : ice.Candidate) (sdpMid : string) (sdpMLineIndex : Z) :
  ((∃ c, newICECandidateFromICE candidate sdpMid sdpMLineIndex = Ok c) ↔
   ice_known (ice.Type_ candidate)
   ∧ ∃ protocol,
       NewICEProtocol (ice.NetworkShort candidate) = Ok protocol)
  ∧ (¬ ice_known (ice.Type_ candidate) →
     newICECandidateFromICE candidate sdpMid sdpMLineIndex
     = Err (Errorf errICECandidateTypeUnknown
              (ice.CandidateType_String (ice.Type_ candidate))))
  ∧ (ice_known (ice.Type_ candidate) →
     ∀ err, NewICEProtocol (ice.NetworkShort candidate) = Err err →
            newICECandidateFromICE candidate sdpMid sdpMLineIndex
            = Err err).
Proof.
  destruct (newICECandidateFromICE_cases candidate sdpMid sdpMLineIndex)
    as [[Hn E]|[(Hk & err & Ep & E)|(Hk & p & c & Ep & E & _)]];
    rewrite E.
  - split; [|split]; [|reflexivity|contradiction].
    split; [intros [c [=]]|tauto].
  - split; [|split]; [|contradiction|].
    + split; [intros [c [=]]|]. intros (_ & p & Hp). congruence.
    + intros _ err' Hp. congruence.
  - split; [|split]; [|contradiction|].
    + split; eauto.
    + intros _ err Hp. congruence.
Qed.

(** X8.  A candidate converted from an ICE candidate has one of the four
    known types, so its type survives the trip through its string form;
    its [Port] and [RelatedPort] are within [uint16]; its identifier,
    foundation, priority, address and component are those of the ICE
    candidate; and it carries the [sdpMid] and [sdpMLineIndex] it was
    converted with, which [ToJSON] hands on. *)
Theorem newICECandidateFromICE_invariants `{Decls} `{ice.API}
    (candidate : ice.Candidate) (sdpMid : string) (sdpMLineIndex : Z)
    (c : ICECandidate) :
  newICECandidateFromICE candidate sdpMid sdpMLineIndex = Ok c →
  Typ c ∈ known_types
  ∧ NewICECandidateType (ICECandidateType_String (Typ c)) = (Typ c, None)
  ∧ 0 ≤ Port c < 65536 ∧ 0 ≤ RelatedPort c < 65536
  ∧ statsID c = ice.ID candidate
  ∧ Foundation c = ice.Foundation candidate
  ∧ Priority c = ice.Priority candidate
  ∧ Address c = ice.CAddress candidate
  ∧ Component c = ice.Component candidate
  ∧ SDPMid c = sdpMid ∧ SDPMLineIndex c = sdpMLineIndex
  ∧ ICECandidateInit.SDPMid (ToJSON c) = Some sdpMid
  ∧ ICECandidateInit.SDPMLineIndex (ToJSON c) = Some sdpMLineIndex.
Proof.
  intros E.
  destruct (newICECandidateFromICE_cases candidate sdpMid sdpMLineIndex)
    as [[_ E']|[(_ & err & _ & E')|(_ & p & c' & _ & E' & Hc)]];
    rewrite E' in E; try discriminate.
  injection E as <-.
  destruct Hc as (_ & _ & Hk & Hid & Hf & Hpr & Ha & Hpo & Hco & _ & Hm
                  & Hi & Hrp).
  split; [exact Hk|]. split; [apply NewICECandidateType_String, Hk|].
  split; [rewrite Hpo; apply Z.mod_pos_bound; lia|].
  split; [exact Hrp|].
  unfold ToJSON. cbn. rewrite Hm, Hi. repeat split; auto.
Qed.

Lemma newICECandidateFromICE_invariants_witness :
  ∃ c, @newICECandidateFromICE Example.decls Example.iceAPI ic_srflx "0" 0
       = Ok c
       ∧ Typ c ∈ known_types ∧ 0 ≤ Port c < 65536.
Proof.
  eexists. split; [reflexivity|].
  pose proof (@newICECandidateFromICE_invariants Example.decls
                Example.iceAPI ic_srflx "0" 0 _ eq_refl) as Hinv.
  split; [apply Hinv|apply Hinv].
Defined.

(** X9.  [newICECandidatesFromICE] converts all candidates or none: it
    succeeds exactly when every candidate converts, and then returns the
    converted candidates one for one, in order (an empty slice for no
    candidates). *)
Theorem newICECandidatesFromICE_all_or_nothing `{Decls} `{ice.API}
    (iceCandidates : list ice.Candidate) (sdpMid : string)
    (sdpMLineIndex : Z) (candidates : list ICECandidate) :
  newICECandidatesFromICE iceCandidates sdpMid sdpMLineIndex
  = Ok candidates ↔
  Forall2 (λ i c, newICECandidateFromICE i sdpMid sdpMLineIndex = Ok c)
    iceCandidates candidates.
Proof.
  unfold newICECandidatesFromICE.
  rewrite newICECandidatesFromICE_loop_Ok_iff. cbn [app]. split.
  - intros (cs & -> & Hcs). exact Hcs.
  - intros Hcs. eauto.
Qed.

(** X10.  [newICECandidatesFromICE] returns the error of the first
    candidate that does not convert, whatever follows it. *)
Theorem newICECandidatesFromICE_first_error `{Decls} `{ice.API}
    (pre post : list ice.Candidate) (bad : ice.Candidate)
    (sdpMid : string) (sdpMLineIndex : Z) (err : error) :
  Forall (λ i, ∃ c, newICECandidateFromICE i sdpMid sdpMLineIndex = Ok c)
    pre →
  newICECandidateFromICE bad sdpMid sdpMLineIndex = Err err →
  newICECandidatesFromICE (pre ++ bad :: post)%list sdpMid sdpMLineIndex
  = Err err.
Proof.
  intros Hpre Hbad. unfold newICECandidatesFromICE.
  apply newICECandidatesFromICE_loop_first_Err; assumption.
Qed.

Lemma newICECandidatesFromICE_first_error_witness :
  @newICECandidatesFromICE Example.decls Example.iceAPI
    [ic_host; ic_sctp; ic_srflx] "0" 0
  = Err (Errorf errICEProtocolUnknown "sctp").
Proof.
  apply (@newICECandidatesFromICE_first_error Example.decls Example.iceAPI
           [ic_host] [ic_srflx] ic_sctp "0" 0).
  - constructor; [|constructor]. eexists. reflexivity.
  - reflexivity.
Defined.

(** X11.  What [toICE] hands to the ICE agent: the identifier, protocol,
    address, port, component, foundation, priority and type of the
    candidate, the TCP type of a host candidate only, and the related
    address and port of the other candidates only.  Two candidates that
    agree on these convert alike, and [ToJSON] gives them the same
    candidate line; [SDPMid], [SDPMLineIndex], the related address of a
    host candidate and the TCP type of the others are not read. *)
Theorem toICE_reads `{Decls} `{ice.API} (c c' : ICECandidate) :
  statsID c = statsID c' → Protocol c = Protocol c' →
  Address c = Address c' → Port c = Port c' →
  Component c = Component c' → Foundation c = Foundation c' →
  Priority c = Priority c' → Typ c = Typ c' →
  (Typ c = ICECandidateTypeHost → TCPType c = TCPType c') →
  (Typ c ≠ ICECandidateTypeHost →
   RelatedAddress c = RelatedAddress c'
   ∧ RelatedPort c = RelatedPort c') →
  toICE c = toICE c'
  ∧ ICECandidateInit.Candidate (ToJSON c)
    = ICECandidateInit.Candidate (ToJSON c').
Proof.
  intros Hid Hpr Ha Hpo Hco Hf Hpri Ht Htcp Hrel.
  assert (E : toICE c = toICE c').
  { unfold toICE, relatedConfig.
    rewrite <- Hid, <- Hpr, <- Ha, <- Hpo, <- Hco, <- Hf, <- Hpri, <- Ht.
    destruct (Z.eqb_spec (Typ c) ICECandidateTypeHost) as [Eh|Nh].
    - rewrite <- (Htcp Eh). reflexivity.
    - destruct (Hrel Nh) as [<- <-]. reflexivity. }
  split; [exact E|]. unfold ToJSON. rewrite E. reflexivity.
Qed.

Lemma toICE_reads_witness :
  @toICE Example.decls Example.iceAPI c_host
  = @toICE Example.decls Example.iceAPI c_host'
  ∧ ICECandidateInit.Candidate (@ToJSON Example.decls Example.iceAPI c_host)
    = ICECandidateInit.Candidate
        (@ToJSON Example.decls Example.iceAPI c_host').
Proof.
  apply (@toICE_reads Example.decls Example.iceAPI c_host c_host');
    try reflexivity.
  intros Hn. exfalso. apply Hn. reflexivity.
Defined.

(** * Decoding a server from JSON *)

Lemma iceserverUnmarshalUrls_loop_inr (s : list dynamic) (idx : nat)
    (out0 out : list string) :
  length out0 = (idx + length s)%nat →
  iceserverUnmarshalUrls_loop idx s out0 = inr out ↔
  ∃ urls, s = DString <$> urls ∧ out = (take idx out0 ++ urls)%list.
Proof.
  revert idx out0. induction s as [|url s IH]; intros idx out0 Hlen; cbn.
  - cbn in Hlen. rewrite Nat.add_0_r in Hlen. split.
    + intros [= <-]. exists []. rewrite app_nil_r, take_ge by lia. auto.
    + intros (urls & Hs & ->). symmetry in Hs.
      apply fmap_nil_inv in Hs as ->.
      rewrite app_nil_r, take_ge by lia. reflexivity.
  - cbn in Hlen.
    assert (Hstep : ∀ str, url = DString str →
      iceserverUnmarshalUrls_loop (S idx) s (<[idx := str]> out0) = inr out
      ↔ ∃ urls, DString str :: s = DString <$> urls
                ∧ out = (take idx out0 ++ urls)%list).
    { intros str _. rewrite IH by (rewrite length_insert; lia).
      assert (Ht : take (S idx) (<[idx := str]> out0)
                   = (take idx out0 ++ [str])%list).
      { rewrite (take_S_r _ _ str)
          by (apply list_lookup_insert_eq; lia).
        rewrite take_insert_ge by lia. reflexivity. }
      rewrite Ht. split.
      - intros (urls & -> & ->). exists (str :: urls).
        rewrite <- app_assoc. auto.
      - intros ([|str' urls] & Hs & ->); [discriminate|].
        cbn in Hs. injection Hs as <- ->. exists urls.
        rewrite <- app_assoc. auto. }
    destruct url; try (apply Hstep; reflexivity);
      (split; [discriminate|]);
      intros ([|str' urls] & Hs & _); discriminate.
Qed.

Lemma iceserverUnmarshalUrls_inr (val : dynamic) (out : list string) :
  iceserverUnmarshalUrls val = inr out ↔ val = DSlice (DString <$> out).
Proof.
  unfold iceserverUnmarshalUrls.
  destruct val as [| | | |s|];
    try (split; [discriminate|intros [=]]).
  rewrite iceserverUnmarshalUrls_loop_inr
    by (rewrite length_replicate; reflexivity).
  cbn [take app]. split.
  - intros (urls & -> & ->). reflexivity.
  - intros [= ->]. eauto.
Qed.

(** X12.  [iceserverUnmarshalUrls] succeeds exactly on a JSON array all of
    whose elements are strings, and returns these strings in order; on
    every other value ([null], a string by itself, an array with a number
    in it) it returns an error, which is [errInvalidICEServer]. *)
Theorem iceserverUnmarshalUrls_strings (val : dynamic) :
  (∀ out, iceserverUnmarshalUrls val = inr out ↔
          val = DSlice (DString <$> out))
  ∧ (∀ err, iceserverUnmarshalUrls val = inl err →
            err = errInvalidICEServer).
Proof.
  split; [apply iceserverUnmarshalUrls_inr|].
  unfold iceserverUnmarshalUrls. destruct val as [| | | |l|];
    try (intros err [= <-]; reflexivity).
  generalize (replicate (length l) EmptyString). generalize 0%nat.
  induction l as [|[] l IH]; intros idx out0 err; cbn;
    try (intros [= <-]; reflexivity); try discriminate; apply IH.
Qed.

(** X13.  [iceserverUnmarshalOauth] succeeds exactly on a JSON object whose
    keys "MACKey" and "AccessToken" both hold strings, and returns the
    credential made of the two; a missing key is an error like a key that
    holds something else.  Other keys of the object are not looked at. *)
Theorem iceserverUnmarshalOauth_keys (val : dynamic) :
  (∀ c, iceserverUnmarshalOauth val = inr c ↔
        ∃ m, val = DMap m
             ∧ m !! "MACKey" = Some (DString (MACKey c))
             ∧ m !! "AccessToken" = Some (DString (AccessToken c)))
  ∧ (∀ m key v,
       val = DMap m → key ≠ "MACKey" → key ≠ "AccessToken" →
       iceserverUnmarshalOauth (DMap (<[key := v]> m))
       = iceserverUnmarshalOauth val).
Proof.
  split.
  - intros [macKey accessToken]. unfold iceserverUnmarshalOauth, index.
    destruct val as [| | | | |m];
      try (split; [discriminate|intros (m & [=] & _)]).
    cbn [MACKey AccessToken]. split.
    + intros E. exists m. split; [reflexivity|].
      destruct (m !! "MACKey") as [[]|]; try discriminate.
      destruct (m !! "AccessToken") as [[]|]; try discriminate.
      cbn in E. injection E as -> ->. auto.
    + intros (m' & [= <-] & -> & ->). reflexivity.
  - intros m key v -> Hk Ha. unfold iceserverUnmarshalOauth, index.
    rewrite !lookup_insert_ne by congruence. reflexivity.
Qed.

Section DecodeFacts.
Context `{Decls} `{Decoding}.

(** What each step of [iceserverUnmarshalFields] leaves alone. *)
Lemma fields_urls_keeps (fields : gmap string dynamic) (s : ICEServer) :
  Username (fst (fields_urls fields s)) = Username s
  ∧ Credential (fst (fields_urls fields s)) = Credential s
  ∧ CredentialType (fst (fields_urls fields s)) = CredentialType s.
Proof.
  unfold fields_urls. destruct (fields !! "urls") as [val|]; [|auto].
  destruct (iceserverUnmarshalUrls val); auto.
Qed.

Lemma fields_username_keeps (fields : gmap string dynamic)
    (s : ICEServer) :
  URLs (fst (fields_username fields s)) = URLs s
  ∧ Credential (fst (fields_username fields s)) = Credential s
  ∧ CredentialType (fst (fields_username fields s)) = CredentialType s
  ∧ (fields !! "username" = None →
     Username (fst (fields_username fields s)) = Username s).
Proof.
  unfold fields_username.
  destruct (fields !! "username") as [[]|]; cbn; repeat split; auto;
    discriminate.
Qed.

Lemma fields_credentialType_keeps (fields : gmap string dynamic)
    (s : ICEServer) :
  URLs (fst (fields_credentialType fields s)) = URLs s
  ∧ Username (fst (fields_credentialType fields s)) = Username s
  ∧ Credential (fst (fields_credentialType fields s)) = Credential s.
Proof.
  unfold fields_credentialType.
  destruct (fields !! "credentialType") as [[| | |ct| |]|]; auto.
  destruct (newICECredentialType ct); auto.
Qed.

Lemma fields_credential_keeps (fields : gmap string dynamic)
    (s : ICEServer) :
  URLs (fst (fields_credential fields s)) = URLs s
  ∧ Username (fst (fields_credential fields s)) = Username s
  ∧ CredentialType (fst (fields_credential fields s)) = CredentialType s
  ∧ (fields !! "credential" = None →
     Credential (fst (fields_credential fields s)) = Credential s).
Proof.
  unfold fields_credential.
  destruct (fields !! "credential") as [val|]; [|auto].
  destruct (_ =? _); [cbn; repeat split; auto; discriminate|].
  destruct (_ =? _); [|cbn; repeat split; auto; discriminate].
  destruct (iceserverUnmarshalOauth val); cbn; repeat split; auto;
    discriminate.
Qed.

Lemma and_then_fst (m k : step) (s : ICEServer) :
  and_then m k s = m s ∧ snd (m s) ≠ None
  ∨ and_then m k s = k (fst (m s)) ∧ snd (m s) = None.
Proof.
  unfold and_then. destruct (m s) as [s' [err|]]; cbn.
  - left. split; [reflexivity|discriminate].
  - right. auto.
Qed.

(** The run of [iceserverUnmarshalFields], step by step: the receiver
    after each step that was reached, and the error of the one that
    failed. *)
Lemma iceserverUnmarshalFields_run (fields : gmap string dynamic)
    (s : ICEServer) :
  let r1 := fields_urls fields s in
  let r2 := fields_username fields (fst r1) in
  let r3 := fields_credentialType fields (fst r2) in
  let r4 := fields_credential fields (fst r3) in
  (snd r1 ≠ None ∧ iceserverUnmarshalFields fields s = r1)
  ∨ (snd r1 = None ∧ snd r2 ≠ None
     ∧ iceserverUnmarshalFields fields s = r2)
  ∨ (snd r1 = None ∧ snd r2 = None ∧ snd r3 ≠ None
     ∧ iceserverUnmarshalFields fields s = r3)
  ∨ (snd r1 = None ∧ snd r2 = None ∧ snd r3 = None
     ∧ iceserverUnmarshalFields fields s = r4).
Proof.
  cbv zeta. unfold iceserverUnmarshalFields.
  destruct (and_then_fst (fields_urls fields)
              (and_then (fields_username fields)
                 (and_then (fields_credentialType fields)
                    (fields_credential fields))) s) as [[-> N1]|[-> E1]];
    [left; auto|right].
  destruct (and_then_fst (fields_username fields)
              (and_then (fields_credentialType fields)
                 (fields_credential fields))
              (fst (fields_urls fields s))) as [[-> N2]|[-> E2]];
    [left; auto|right].
  destruct (and_then_fst (fields_credentialType fields)
              (fields_credential fields)
              (fst (fields_username fields (fst (fields_urls fields s)))))
    as [[-> N3]|[-> E3]]; [left; auto|right; auto].
Qed.

End DecodeFacts.

Section DecodeSteps.
Context `{Decls} `{Decoding}.

Lemma fields_urls_Ok (fields : gmap string dynamic) (s : ICEServer) :
  snd (fields_urls fields s) = None →
  match fields !! "urls" with
  | Some val => val = DSlice (DString <$> URLs (fst (fields_urls fields s)))
  | None => URLs (fst (fields_urls fields s)) = []
  end.
Proof.
  unfold fields_urls. destruct (fields !! "urls") as [val|]; [|auto].
  destruct (iceserverUnmarshalUrls val) as [err|u] eqn:E; [discriminate|].
  intros _. apply iceserverUnmarshalUrls_inr, E.
Qed.

Lemma fields_username_Ok (fields : gmap string dynamic) (s : ICEServer) :
  snd (fields_username fields s) = None →
  match fields !! "username" with
  | Some val => val = DString (Username (fst (fields_username fields s)))
  | None => Username (fst (fields_username fields s)) = Username s
  end.
Proof.
  unfold fields_username.
  destruct (fields !! "username") as [[]|]; cbn; auto; discriminate.
Qed.

Lemma fields_credentialType_Ok (fields : gmap string dynamic)
    (s : ICEServer) :
  snd (fields_credentialType fields s) = None →
  match fields !! "credentialType" with
  | Some val =>
    ∃ ct, val = DString ct
          ∧ newICECredentialType ct
            = inr (CredentialType (fst (fields_credentialType fields s)))
  | None =>
    CredentialType (fst (fields_credentialType fields s))
    = ICECredentialTypePassword
  end.
Proof.
  unfold fields_credentialType.
  destruct (fields !! "credentialType") as [[| | |ct| |]|]; cbn; auto;
    try discriminate.
  destruct (newICECredentialType ct) as [err|tpe] eqn:E; [discriminate|].
  intros _. exists ct. auto.
Qed.

Lemma fields_credential_Ok (fields : gmap string dynamic) (s : ICEServer) :
  snd (fields_credential fields s) = None →
  match fields !! "credential" with
  | Some val =>
    (CredentialType s = ICECredentialTypePassword
     ∧ Credential (fst (fields_credential fields s)) = held val)
    ∨ (CredentialType s ≠ ICECredentialTypePassword
       ∧ CredentialType s = ICECredentialTypeOauth
       ∧ ∃ c, iceserverUnmarshalOauth val = inr c
              ∧ Credential (fst (fields_credential fields s))
                = AnyOAuthCredential c)
  | None => Credential (fst (fields_credential fields s)) = Credential s
  end.
Proof.
  unfold fields_credential.
  destruct (fields !! "credential") as [val|]; [|auto].
  destruct (Z.eqb_spec (CredentialType s) ICECredentialTypePassword);
    [left; auto|].
  destruct (Z.eqb_spec (CredentialType s) ICECredentialTypeOauth);
    [|discriminate].
  destruct (iceserverUnmarshalOauth val) as [err|c]; [discriminate|].
  intros _. right. eauto 6.
Qed.

End DecodeSteps.

(** X14.  Decoding does not reset the receiver: whether it succeeds or
    fails, [iceserverUnmarshalFields] leaves the username of the receiver
    as it was when the object has no "username" and its credential as it
    was when the object has no "credential"; and [UnmarshalJSON] leaves
    the receiver as a whole as it was when the text is not JSON or is not
    a JSON object. *)
Theorem iceserverUnmarshalFields_keeps `{Decls} `{Decoding}
    (fields : gmap string dynamic) (s : ICEServer) :
  (fields !! "username" = None →
   Username (fst (iceserverUnmarshalFields fields s)) = Username s)
  ∧ (fields !! "credential" = None →
     Credential (fst (iceserverUnmarshalFields fields s)) = Credential s)
  ∧ (∀ json_Unmarshal b,
       (∀ m, json_Unmarshal b ≠ inr (DMap m)) →
       fst (UnmarshalJSON json_Unmarshal b s) = s
       ∧ snd (UnmarshalJSON json_Unmarshal b s) ≠ None).
Proof.
  pose proof (fields_urls_keeps fields s) as (U1 & C1 & _).
  pose proof (fields_username_keeps fields (fst (fields_urls fields s)))
    as (_ & C2 & _ & U2).
  pose proof (fields_credentialType_keeps fields
                (fst (fields_username fields (fst (fields_urls fields s)))))
    as (_ & U3 & C3).
  pose proof (fields_credential_keeps fields
                (fst (fields_credentialType fields
                   (fst (fields_username fields
                      (fst (fields_urls fields s)))))))
    as (_ & U4 & _ & C4).
  split; [|split].
  - intros Hu.
    destruct (iceserverUnmarshalFields_run fields s)
      as [[_ ->]|[(_ & _ & ->)|[(_ & _ & _ & ->)|(_ & _ & _ & ->)]]];
      rewrite ?U4, ?U3, ?(U2 Hu), ?U1; reflexivity.
  - intros Hc.
    destruct (iceserverUnmarshalFields_run fields s)
      as [[_ ->]|[(_ & _ & ->)|[(_ & _ & _ & ->)|(_ & _ & _ & ->)]]];
      rewrite ?(C4 Hc), ?C3, ?C2, ?C1; reflexivity.
  - intros json_Unmarshal b Hb. unfold UnmarshalJSON.
    destruct (json_Unmarshal b) as [err|[| | | | |m]] eqn:E; cbn;
      try (split; [reflexivity|discriminate]).
    exfalso. apply (Hb m). reflexivity.
Qed.

(** X15.  An error can leave the receiver half decoded: when "urls" holds
    an array of strings and "username" something that is not a string,
    [iceserverUnmarshalFields] returns [errInvalidICEServer] with the URLs
    of the receiver replaced and its username emptied; its credential and
    credential type are as they were. *)
Theorem iceserverUnmarshalFields_partial `{Decls} `{Decoding}
    (fields : gmap string dynamic) (s : ICEServer) (us : list string)
    (val : dynamic) :
  fields !! "urls" = Some (DSlice (DString <$> us)) →
  fields !! "username" = Some val →
  (∀ str, val ≠ DString str) →
  iceserverUnmarshalFields fields s
  = ({| URLs := us; Username := ""; Credential := Credential s;
        CredentialType := CredentialType s |},
     Some errInvalidICEServer).
Proof.
  intros Hu Hn Hv.
  unfold iceserverUnmarshalFields, and_then, fields_urls. rewrite Hu.
  rewrite (proj2 (iceserverUnmarshalUrls_inr _ us) eq_refl).
  unfold fields_username. rewrite Hn.
  destruct val; try reflexivity. exfalso. eapply Hv. reflexivity.
Qed.

Lemma iceserverUnmarshalFields_partial_witness :
  @iceserverUnmarshalFields Example.decls decoding bad_username_fields
    old_server
  = ({| URLs := ["turn:example.com"]; Username := "";
        Credential := AnyString "secret"; CredentialType := 0 |},
     Some errInvalidICEServer).
Proof.
  apply (@iceserverUnmarshalFields_partial Example.decls decoding
           bad_username_fields old_server ["turn:example.com"]
           (DFloat64 0)).
  - reflexivity.
  - reflexivity.
  - discriminate.
Defined.

Lemma iceserverUnmarshalFields_stored `{Decls} `{Decoding}
    (fields : gmap string dynamic) (s s' : ICEServer) :
  iceserverUnmarshalFields fields s = (s', None) →
  stored_by fields s s'.
Proof.
  intros E.
  destruct (iceserverUnmarshalFields_run fields s)
    as [[N E']|[(_ & N & E')|[(_ & _ & N & E')|(E1 & E2 & E3 & E')]]];
    rewrite E in E'; try (rewrite <- E' in N; cbn in N; congruence).
  set (s1 := fst (fields_urls fields s)) in *.
  set (s2 := fst (fields_username fields s1)) in *.
  set (s3 := fst (fields_credentialType fields s2)) in *.
  assert (Es' : s' = fst (fields_credential fields s3))
    by (rewrite <- E'; reflexivity).
  pose proof (fields_urls_Ok fields s E1) as O1.
  pose proof (fields_username_Ok fields s1 E2) as O2.
  pose proof (fields_credentialType_Ok fields s2 E3) as O3.
  assert (E4 : snd (fields_credential fields s3) = None)
    by (rewrite <- E'; reflexivity).
  pose proof (fields_credential_Ok fields s3 E4) as O4.
  pose proof (fields_urls_keeps fields s) as (U1 & C1 & _).
  pose proof (fields_username_keeps fields s1) as (L2 & C2 & _ & _).
  pose proof (fields_credentialType_keeps fields s2) as (L3 & U3 & C3).
  pose proof (fields_credential_keeps fields s3) as (L4 & U4 & T4 & _).
  fold s1 in O1, U1, C1, L2, C2. fold s2 in O2, L2, C2, L3, U3, C3.
  fold s3 in O3, L3, U3, C3, L4, U4, T4, O4.
  rewrite <- Es' in *. unfold stored_by.
  split; [|split; [|split]].
  - rewrite L4, L3, L2. exact O1.
  - rewrite U4, U3. rewrite <- U1. exact O2.
  - rewrite T4. exact O3.
  - rewrite T4. rewrite <- C1, <- C2, <- C3. exact O4.
Qed.

(** X16.  What a successful [iceserverUnmarshalFields] has stored, field
    by field.  "urls" is an array of strings, now the URLs, or is absent
    and the URLs are empty.  "username" is a string, now the username, or
    is absent and the username is the receiver's.  "credentialType" is a
    string that [newICECredentialType] reads as the credential type, or
    is absent and the credential type is password.  "credential" is
    absent and the credential is the receiver's, or it is stored as it is
    under the credential type password, or it is an object that
    [iceserverUnmarshalOauth] reads as the [OAuthCredential] stored under
    the credential type oauth. *)
Theorem iceserverUnmarshalFields_stores `{Decls} `{Decoding}
    (fields : gmap string dynamic) (s s' : ICEServer) :
  iceserverUnmarshalFields fields s = (s', None) →
  stored_by fields s s'.
Proof. apply iceserverUnmarshalFields_stored. Qed.

Lemma iceserverUnmarshalFields_stores_witness :
  @stored_by Example.decls decoding password_fields old_server
    {| URLs := ["turn:example.com"]; Username := "u";
       Credential := AnyString "p"; CredentialType := 0 |}.
Proof.
  apply (@iceserverUnmarshalFields_stores Example.decls decoding).
  reflexivity.
Defined.

Lemma decoding_faithful : @HeldFaithful decoding.
Proof.
  split; [reflexivity|reflexivity|].
  intros [| | |str| |] Hn Hs; cbn; try (repeat split; discriminate).
  - contradiction.
  - exfalso. eapply Hs. reflexivity.
Qed.

(** X17.  A server decoded with a "credential", a username and a TURN or
    TURNS URL among URLs that all parse passes validation exactly when
    its credential type is oauth or the JSON credential is a string: the
    decoding checks the credential of an oauth server and stores that of a
    password server unseen, so that a number or an object there is found
    by [validate] only. *)
Theorem decoded_server_validates `{Decls} `{Decoding} `{stun.API}
    `{!HeldFaithful} (fields : gmap string dynamic) (s s' : ICEServer)
    (val : dynamic) :
  iceserverUnmarshalFields fields s = (s', None) →
  fields !! "credential" = Some val →
  ICECredentialTypePassword ≠ ICECredentialTypeOauth →
  Username s' ≠ "" → all_parse s' → has_turn_url s' →
  (validate s' = None ↔
   CredentialType s' = ICECredentialTypeOauth ∨ ∃ p, val = DString p).
Proof.
  intros E Hc Hd Hu Hall Hturn.
  destruct (iceserverUnmarshalFields_stored fields s s' E)
    as (_ & _ & _ & Hcred).
  rewrite Hc in Hcred.
  rewrite (proj2 (validate_passes_iff s')).
  unfold credentials_accepted.
  destruct Hcred as [[Ep Eh]|(Np & Eo & c & _ & Ec)].
  - rewrite Eh. split.
    + intros [_ Hacc].
      destruct (Hacc Hturn) as (_ & _ & [[_ [p Hp]]|(Np & _)]);
        [|contradiction].
      right. destruct val as [| | |str| |];
        [rewrite held_nil in Hp; discriminate| | |eauto| |].
      all: match type of Hp with
           | held ?v = _ =>
             destruct (held_other v) as (_ & Hns & _);
               [discriminate|intros; discriminate
               |exfalso; eapply Hns, Hp]
           end.
    + intros [Eo|[p ->]]; [congruence|].
      rewrite held_string. split; [exact Hall|]. intros _.
      split; [exact Hu|]. split; [discriminate|]. left. eauto.
  - rewrite Ec. split; [auto|]. intros _. split; [exact Hall|].
    intros _. split; [exact Hu|]. split; [discriminate|]. right. eauto.
Qed.

Lemma decoded_server_validates_witness :
  @validate Example.decls Example.stunAPI password_server = None ↔
  CredentialType password_server = @ICECredentialTypeOauth Example.decls
  ∨ ∃ p, DString "p" = DString p.
Proof.
  apply (@decoded_server_validates Example.decls decoding Example.stunAPI
           decoding_faithful password_fields old_server password_server
           (DString "p")).
  - reflexivity.
  - reflexivity.
  - discriminate.
  - discriminate.
  - constructor; [|constructor]. eexists. vm_compute. reflexivity.
  - apply Example_has_turn_url.
Defined.

(** * The line filters of the tests *)

Lemma append_cons (c : ascii) (s t : string) :
  String c s +:+ t = String c (s +:+ t).
Proof. reflexivity. Qed.

Lemma append_nil_l (s : string) : "" +:+ s = s.
Proof. reflexivity. Qed.

Lemma append_nil_r (s : string) : s +:+ "" = s.
Proof.
  induction s as [|c s IH]; [reflexivity|].
  rewrite append_cons, IH. reflexivity.
Qed.

Lemma append_assoc (s1 s2 s3 : string) :
  (s1 +:+ s2) +:+ s3 = s1 +:+ (s2 +:+ s3).
Proof.
  induction s1 as [|c s1 IH]; [reflexivity|].
  rewrite !append_cons, IH. reflexivity.
Qed.

Lemma length_append (s1 s2 : string) :
  String.length (s1 +:+ s2) = (String.length s1 + String.length s2)%nat.
Proof.
  induction s1 as [|c s1 IH]; [reflexivity|].
  rewrite append_cons. cbn. rewrite IH. reflexivity.
Qed.

Lemma one_line_append (s1 s2 : string) :
  one_line (s1 +:+ s2) = one_line s1 && one_line s2.
Proof.
  induction s1 as [|c s1 IH]; [reflexivity|].
  rewrite append_cons. cbn. rewrite IH, andb_assoc. reflexivity.
Qed.

(** A line of the text continues the line under way. *)
Lemma scan_line (l cur rest : string) :
  one_line l = true →
  scan cur (l +:+ rest) = scan (cur +:+ l) rest.
Proof.
  revert cur. induction l as [|c l IH]; intros cur Hl.
  - rewrite append_nil_l, append_nil_r. reflexivity.
  - cbn in Hl. apply andb_prop in Hl as [Hc Hl].
    apply negb_true_iff in Hc. rewrite append_cons. cbn [scan].
    rewrite Hc, (IH _ Hl), append_assoc, append_cons, append_nil_l.
    reflexivity.
Qed.

Lemma scan_unlines (lines : list string) (rest : string) :
  Forall (λ l, one_line l = true) lines →
  scan "" (unlines lines +:+ rest) = (lines ++ scan "" rest)%list.
Proof.
  induction 1 as [|l lines Hl _ IH]; [reflexivity|].
  cbn [unlines]. rewrite !append_assoc, (scan_line l) by exact Hl.
  rewrite append_cons, append_nil_l, append_nil_l. cbn [scan].
  rewrite Ascii.eqb_refl, IH. reflexivity.
Qed.

(** Every line of a scan holds no newline, and is at least as long as the
    line that was under way when it is the first. *)
Lemma scan_one_line (s cur : string) :
  one_line cur = true → Forall (λ l, one_line l = true) (scan cur s).
Proof.
  revert cur. induction s as [|c s IH]; intros cur Hcur; cbn.
  - destruct (String.eqb cur ""); repeat constructor. exact Hcur.
  - destruct (Ascii.eqb c newline) eqn:Ec.
    + constructor; [exact Hcur|]. apply IH. reflexivity.
    + apply IH. rewrite one_line_append, Hcur. cbn. rewrite Ec.
      reflexivity.
Qed.

Lemma scan_head (s cur : string) :
  match scan cur s with
  | [] => cur = ""
  | l :: _ => (String.length cur ≤ String.length l)%nat
  end.
Proof.
  revert cur. induction s as [|c s IH]; intros cur; cbn.
  - destruct (String.eqb_spec cur ""); [assumption|lia].
  - destruct (Ascii.eqb c newline); [lia|].
    specialize (IH (cur +:+ String c "")).
    destruct (scan (cur +:+ String c "") s) as [|l ls].
    + destruct cur; discriminate.
    + rewrite length_append in IH. lia.
Qed.

Lemma while_fits_all (lines : list string) :
  Forall (λ l, fits l = true) lines → while_fits lines = lines.
Proof.
  induction 1 as [|l lines Hl _ IH]; cbn; [reflexivity|].
  rewrite Hl, IH. reflexivity.
Qed.

Lemma while_fits_stop (pre post : list string) (l : string) :
  Forall (λ l, fits l = true) pre → fits l = false →
  while_fits (pre ++ l :: post) = pre.
Proof.
  induction 1 as [|p pre Hp _ IH]; intros Hl; cbn.
  - rewrite Hl. reflexivity.
  - rewrite Hp, (IH Hl). reflexivity.
Qed.

Lemma while_fits_Forall (P : string → Prop) (lines : list string) :
  Forall P lines →
  Forall (λ l, P l ∧ fits l = true) (while_fits lines).
Proof.
  induction 1 as [|l lines Hl _ IH]; cbn; [constructor|].
  destruct (fits l) eqn:E; constructor; auto.
Qed.

Lemma dropCR_length (l : string) :
  (String.length (dropCR l) ≤ String.length l)%nat.
Proof.
  induction l as [|c [|c' l] IH]; cbn in *; [lia| |lia].
  destruct (Ascii.eqb c carriage_return); cbn; lia.
Qed.

Lemma dropCR_one_line (l : string) :
  one_line l = true → one_line (dropCR l) = true.
Proof.
  induction l as [|c [|c' l] IH]; cbn in *; [auto| |].
  - destruct (Ascii.eqb c carriage_return); auto.
  - intros [Hc Hl]%andb_prop. rewrite Hc. cbn. apply IH, Hl.
Qed.

Lemma dropCR_scannable (l : string) : scannable l → scannable (dropCR l).
Proof.
  intros [Hl Hf]. split; [apply dropCR_one_line, Hl|].
  unfold fits in *. pose proof (dropCR_length l).
  apply Z.ltb_lt in Hf. apply Z.ltb_lt. lia.
Qed.

(** Every line that a scan hands out can come out of a scan again. *)
Lemma scanned_scannable (text : string) : Forall scannable (scanned text).
Proof.
  unfold scanned. apply Forall_fmap.
  eapply Forall_impl;
    [apply while_fits_Forall, (scan_one_line text ""), eq_refl|].
  intros l Hl. apply dropCR_scannable, Hl.
Qed.

(** Scanning a text of lines gives these lines back, a carriage return
    at the end of a line dropped. *)
Lemma scanned_unlines (lines : list string) :
  Forall scannable lines → scanned (unlines lines) = dropCR <$> lines.
Proof.
  intros Hl. unfold scanned.
  rewrite <- (append_nil_r (unlines lines)), scan_unlines.
  - cbn [scan String.eqb]. rewrite app_nil_r, while_fits_all; [reflexivity|].
    eapply Forall_impl; [exact Hl|]. intros l H. apply H.
  - eapply Forall_impl; [exact Hl|]. intros l H. apply H.
Qed.

Lemma unlines_app (l1 l2 : list string) :
  unlines (l1 ++ l2) = unlines l1 +:+ unlines l2.
Proof.
  induction l1 as [|l l1 IH]; cbn; [reflexivity|].
  rewrite IH, !append_assoc. reflexivity.
Qed.

Lemma filterSsrc_loop_kept (lines : list string) (acc : string) :
  filterSsrc_loop lines acc = acc +:+ unlines (kept "a=ssrc" lines).
Proof.
  revert acc. induction lines as [|l lines IH]; intros acc; cbn.
  - rewrite append_nil_r. reflexivity.
  - destruct (HasPrefix l "a=ssrc"); cbn; rewrite IH; [reflexivity|].
    rewrite !append_assoc. reflexivity.
Qed.

Lemma filterSDPExtensions_loop_kept (lines : list string) (acc : string) :
  filterSDPExtensions_loop lines acc
  = acc +:+ unlines (kept "a=extmap" lines).
Proof.
  revert acc. induction lines as [|l lines IH]; intros acc; cbn.
  - rewrite append_nil_r. reflexivity.
  - destruct (HasPrefix l "a=extmap"); cbn; rewrite IH; [reflexivity|].
    rewrite !append_assoc. reflexivity.
Qed.

Lemma filterSsrc_kept (offer : string) :
  filterSsrc offer = unlines (kept "a=ssrc" (scanned offer)).
Proof. apply filterSsrc_loop_kept. Qed.

Lemma filterSDPExtensions_kept (offer : string) :
  filterSDPExtensions offer = unlines (kept "a=extmap" (scanned offer)).
Proof. apply filterSDPExtensions_loop_kept. Qed.

(** Dropping a carriage return at the end of a line does not change
    whether the line starts with a prefix that holds none. *)
Lemma HasPrefix_dropCR (prefix l : string) :
  Forall (λ c, c ≠ carriage_return) (String.list_ascii_of_string prefix) →
  HasPrefix (dropCR l) prefix = HasPrefix l prefix.
Proof.
  unfold HasPrefix. revert l.
  induction prefix as [|a prefix IH]; intros l Hp.
  - destruct l, (dropCR _); reflexivity.
  - cbn in Hp. apply Forall_cons in Hp as [Ha Hp].
    destruct l as [|c [|c' l]]; [reflexivity| |].
    + cbn. destruct (Ascii.eqb_spec c carriage_return) as [->|Hc];
        [|reflexivity].
      destruct (ascii_dec a carriage_return); [contradiction|reflexivity].
    + change (dropCR (String c (String c' l)))
        with (String c (dropCR (String c' l))).
      cbn [String.prefix]. destruct (ascii_dec a c); [|reflexivity].
      apply IH, Hp.
Qed.

Lemma kept_dropCR (prefix : string) (lines : list string) :
  Forall (λ c, c ≠ carriage_return) (String.list_ascii_of_string prefix) →
  kept prefix (dropCR <$> lines) = dropCR <$> kept prefix lines.
Proof.
  intros Hp. unfold kept.
  induction lines as [|l lines IH]; cbn; [reflexivity|].
  rewrite (HasPrefix_dropCR prefix l Hp), IH.
  destruct (HasPrefix l prefix); reflexivity.
Qed.

Lemma kept_Forall (P : string → Prop) (prefix : string)
    (lines : list string) :
  Forall P lines → Forall P (kept prefix lines).
Proof.
  unfold kept. induction 1 as [|l lines Hl _ IH]; cbn; [constructor|].
  destruct (HasPrefix l prefix); cbn; auto.
Qed.

Lemma kept_kept (p q : string) (lines : list string) :
  kept p (kept q lines) = kept q (kept p lines).
Proof.
  unfold kept. induction lines as [|l lines IH]; cbn; [reflexivity|].
  destruct (HasPrefix l q) eqn:Eq, (HasPrefix l p) eqn:Ep; cbn;
    rewrite ?Eq, ?Ep; cbn; rewrite IH; reflexivity.
Qed.

Lemma kept_none (prefix : string) (lines : list string) :
  Forall (λ l, HasPrefix l prefix = false) (kept prefix lines).
Proof.
  unfold kept. induction lines as [|l lines IH]; cbn; [constructor|].
  destruct (HasPrefix l prefix) eqn:E; cbn; auto.
Qed.

Lemma no_CR_ssrc :
  Forall (λ c, c ≠ carriage_return) (String.list_ascii_of_string "a=ssrc").
Proof. repeat constructor; discriminate. Qed.

Lemma no_CR_extmap :
  Forall (λ c, c ≠ carriage_return) (String.list_ascii_of_string "a=extmap").
Proof. repeat constructor; discriminate. Qed.

(** X18.  The lines of what [filterSsrc] returns are the lines of the
    offer that do not start with "a=ssrc", in order (a carriage return at
    the end of a line dropped once more by the new scan): none of them
    starts with "a=ssrc".  The same holds for [filterSDPExtensions] and
    "a=extmap". *)
Theorem filters_drop_lines (offer : string) :
  (scanned (filterSsrc offer) = dropCR <$> kept "a=ssrc" (scanned offer)
   ∧ Forall (λ l, HasPrefix l "a=ssrc" = false)
       (scanned (filterSsrc offer)))
  ∧ (scanned (filterSDPExtensions offer)
     = dropCR <$> kept "a=extmap" (scanned offer)
     ∧ Forall (λ l, HasPrefix l "a=extmap" = false)
         (scanned (filterSDPExtensions offer))).
Proof.
  assert (Hs : ∀ p, Forall scannable (kept p (scanned offer)))
    by (intros p; apply kept_Forall, scanned_scannable).
  rewrite filterSsrc_kept, filterSDPExtensions_kept.
  rewrite !scanned_unlines by apply Hs.
  rewrite <- (kept_dropCR "a=ssrc") by apply no_CR_ssrc.
  rewrite <- (kept_dropCR "a=extmap") by apply no_CR_extmap.
  repeat split; apply kept_none.
Qed.

(** X19.  The two filters commute: filtering the SSRC lines out of an
    offer without its extension lines gives the same text as filtering
    the extension lines out of the offer without its SSRC lines. *)
Theorem filters_commute (offer : string) :
  filterSsrc (filterSDPExtensions offer)
  = filterSDPExtensions (filterSsrc offer).
Proof.
  rewrite (filterSsrc_kept (filterSDPExtensions offer)),
    (filterSDPExtensions_kept (filterSsrc offer)).
  rewrite filterSsrc_kept, filterSDPExtensions_kept.
  rewrite !scanned_unlines by apply kept_Forall, scanned_scannable.
  rewrite (kept_dropCR "a=ssrc") by apply no_CR_ssrc.
  rewrite (kept_dropCR "a=extmap") by apply no_CR_extmap.
  rewrite kept_kept. reflexivity.
Qed.

(** X20.  On a text of lines that each end with a newline, hold no other
    newline and fit the buffer of the scanner, [filterSsrc] returns the
    lines that do not start with "a=ssrc", each with one carriage return
    dropped from its end and a newline after it; [filterSDPExtensions]
    does the same for "a=extmap". *)
Theorem filters_on_lines (lines : list string) :
  Forall scannable lines →
  filterSsrc (unlines lines) = unlines (kept "a=ssrc" (dropCR <$> lines))
  ∧ filterSDPExtensions (unlines lines)
    = unlines (kept "a=extmap" (dropCR <$> lines)).
Proof.
  intros Hl. rewrite filterSsrc_kept, filterSDPExtensions_kept.
  rewrite (scanned_unlines lines Hl). auto.
Qed.

Lemma filters_on_lines_witness :
  filterSsrc (unlines sdp_lines)
  = unlines (kept "a=ssrc" (dropCR <$> sdp_lines))
  ∧ filterSDPExtensions (unlines sdp_lines)
    = unlines (kept "a=extmap" (dropCR <$> sdp_lines)).
Proof.
  apply (filters_on_lines sdp_lines).
  repeat constructor.
Defined.

(** X21.  A line that does not fit the buffer of the scanner ends the
    filtering without a word: what [filterSsrc] and [filterSDPExtensions]
    return for the text up to that line is all they return, whatever
    follows. *)
Theorem filters_stop_at_long_line (pre : list string) (long rest : string) :
  Forall scannable pre → one_line long = true → fits long = false →
  filterSsrc (unlines pre +:+ long +:+ rest) = filterSsrc (unlines pre)
  ∧ filterSDPExtensions (unlines pre +:+ long +:+ rest)
    = filterSDPExtensions (unlines pre).
Proof.
  intros Hpre Hone Hlong.
  assert (E : scanned (unlines pre +:+ long +:+ rest)
              = scanned (unlines pre)).
  { rewrite (scanned_unlines pre Hpre). unfold scanned.
    rewrite scan_unlines
      by (eapply Forall_impl; [exact Hpre|]; intros l H; apply H).
    rewrite (scan_line long "" rest Hone), append_nil_l.
    pose proof (scan_head rest long) as Hh.
    destruct (scan long rest) as [|l ls].
    - subst long. discriminate.
    - rewrite (while_fits_stop pre ls l); [reflexivity| |].
      + eapply Forall_impl; [exact Hpre|]. intros l' H. apply H.
      + unfold fits in *. apply Z.ltb_ge in Hlong. apply Z.ltb_ge. lia. }
  rewrite !filterSsrc_kept, !filterSDPExtensions_kept, E. auto.
Qed.

Lemma filters_stop_at_long_line_witness :
  filterSsrc (unlines ["v=0"] +:+ long_line
              +:+ String newline "a=mid:0")
  = filterSsrc (unlines ["v=0"])
  ∧ filterSDPExtensions (unlines ["v=0"] +:+ long_line
                         +:+ String newline "a=mid:0")
    = filterSDPExtensions (unlines ["v=0"]).
Proof.
  apply (filters_stop_at_long_line ["v=0"] long_line
           (String newline "a=mid:0")).
  - repeat constructor.
  - vm_compute. reflexivity.
  - vm_compute. reflexivity.
Defined.
